(** * Entanglement forging: the forged operator

    A shallow embedding of [entanglement_forging/core/forged_operator.py]
    (class [ForgedOperator]: [__init__] and [construct]).

    Conventions of the embedding:
    - Python exceptions are the values of [exn]; a computation that may
      raise returns a [result].
    - [construct] is a method: it runs in the monad [M], which threads the
      instance ([self]) and the log sink, so that what it leaves behind is
      part of what is proved.
    - a Python [dict] is an association list in insertion order with
      distinct keys ([dict_set] overwrites in place); a Python [set] of
      labels is a [gset string]; [sorted] is a merge sort on the code-point
      order of strings; a numpy matrix is a list of rows.
    - the arithmetic is embedded twice.  The source computes on binary64
      floating-point numbers ([complex128] weights, [float64] cells):
      [Float64.construct] is [construct] on these numbers, and is where the
      values of cells are computed.  The general properties are proved on
      [construct] over exact rationals ([Q]): there [np.abs(w) > 0] is the
      test that [w] is not zero, and sums carry no rounding.  The two
      embeddings differ in the arithmetic only. *)

From Stdlib Require Import QArith OrdersEx Floats.PrimFloat.
From stdpp Require Import base gmap sets list strings sorting.

Local Open Scope Q_scope.
Local Open Scope stdpp_scope.
Local Open Scope string_scope.
Local Open Scope list_scope.

(** ** Exceptions and results *)

Inductive exn : Type :=
  | AssertionError
  | IndexError
  | KeyError
  | UnboundLocalError
  | OtherError (cls : string).

(** The name of the class of an exception, as Python reports it. *)
Definition exn_name (e : exn) : string :=
  match e with
  | AssertionError => "AssertionError"
  | IndexError => "IndexError"
  | KeyError => "KeyError"
  | UnboundLocalError => "UnboundLocalError"
  | OtherError cls => cls
  end.

Inductive result (A : Type) : Type :=
  | Ok (a : A)
  | Raise (e : exn).
Arguments Ok {A} a.
Arguments Raise {A} e.

#[global] Instance result_ret : MRet result := fun A a => Ok a.
#[global] Instance result_bind : MBind result := fun A B f m =>
  match m with
  | Ok a => f a
  | Raise e => Raise e
  end.

(** [for x in l: s = body s x], stopping at the first exception. *)
Fixpoint for_each {A S : Type} (body : S -> A -> result S) (l : list A) (s : S)
  : result S :=
  match l with
  | [] => Ok s
  | x :: l' =>
      match body s x with
      | Ok s' => for_each body l' s'
      | Raise e => Raise e
      end
  end.

(** ** Complex weights *)

Record complex : Type := Complex { real : Q; imag : Q }.

(** [w_1 * w_2] on complex numbers. *)
Definition cmul (w1 w2 : complex) : complex :=
  Complex (real w1 * real w2 - imag w1 * imag w2)
          (real w1 * imag w2 + imag w1 * real w2).

(** [np.abs(weight) > 0]: the modulus of a complex number is positive
    exactly when one of its components is not zero. *)
Definition abs_gt_0 (w : complex) : bool :=
  negb (Qeq_bool (real w) 0 && Qeq_bool (imag w) 0).

(** ** Dictionaries in insertion order *)

Definition dict (V : Type) : Type := list (string * V).

Fixpoint dict_set {V : Type} (k : string) (v : V) (d : dict V) : dict V :=
  match d with
  | [] => [(k, v)]
  | (k', v') :: d' =>
      if decide (k' = k) then (k', v) :: d' else (k', v') :: dict_set k v d'
  end.

Fixpoint dict_get {V : Type} (d : dict V) (k : string) : option V :=
  match d with
  | [] => None
  | (k', v') :: d' => if decide (k' = k) then Some v' else dict_get d' k
  end.

(** [d[k]] *)
Definition dict_getitem {V : Type} (d : dict V) (k : string) : result V :=
  match dict_get d k with
  | Some v => Ok v
  | None => Raise KeyError
  end.

(** [{k: v for k, v in items}] *)
Definition dict_of_items {V : Type} (items : list (string * V)) : dict V :=
  fold_left (fun d kv => dict_set kv.1 kv.2 d) items [].

(** [list(d.keys())] *)
Definition keys {V : Type} (d : dict V) : list string := d.*1.

(** [enumerate(l)] *)
Definition enumerate {A : Type} (l : list A) : list (nat * A) :=
  zip (seq 0 (length l)) l.

(** ** Strings *)

(** [s * n] *)
Fixpoint str_mul (s : string) (n : nat) : string :=
  match n with
  | O => ""
  | S n' => s +:+ str_mul s n'
  end.

(** The order [sorted] uses on [str]: code points, lexicographically. *)
Definition str_le (s1 s2 : string) : Prop := String.leb s1 s2 = true.

#[global] Instance str_le_dec : RelDecision str_le.
Proof. intros s1 s2. unfold str_le. apply _. Defined.

(** [list(sorted(s))] for a set of labels. *)
Definition sorted (s : gset string) : list string :=
  merge_sort str_le (elements s).

(** ** Matrices *)

Abbreviation matrix := (list (list Q)).

(** [np.zeros((n, m))] *)
Definition zeros (n m : nat) : matrix := replicate n (replicate m 0).

(** [w[i, j] += v]; numpy raises [IndexError] out of range. *)
Definition mat_add (w : matrix) (i j : nat) (v : Q) : result matrix :=
  match w !! i with
  | None => Raise IndexError
  | Some row =>
      match row !! j with
      | None => Raise IndexError
      | Some x => Ok (<[i := <[j := x + v]> row]> w)
      end
  end.

(** [w[i, j]], when in range. *)
Definition entry (w : matrix) (i j : nat) : option Q :=
  row ← w !! i; row !! j.

(** ** Operators and the molecule *)

(** What [construct] uses of an operator: [op.primitive.to_list()], the list
    of (label, weight) pairs of its Pauli terms. *)
Record PauliSumOp : Type := { to_list : list (string * complex) }.
Record OperatorBase : Type := { primitive : PauliSumOp }.

(** The fields of [QMolecule] that [ForgedOperator] reads. *)
Record QMolecule : Type := {
  mo_coeff : list (list Q);
  hcore : list (list Q);
  eri : list (list (list (list Q)));
  num_alpha : Z;
  num_beta : Z
}.

(** The two index lists an [OrbitalsToReduce] object answers with. *)
Record OrbitalsToReduce : Type := {
  occupied : list Z;
  virtual : list Z
}.

Record ForgedOperator : Type := {
  qmolecule : QMolecule;
  all_orbitals_to_reduce : list Z;
  orbitals_to_reduce : OrbitalsToReduce;
  epsilon_cholesky : Q;
  h_1_op : OperatorBase;
  h_chol_ops : option (list OperatorBase)
}.

(** ** The monad of methods: the instance and the log sink are threaded *)

Definition LogRecord : Type := string * nat.

Record world : Type := World {
  self : ForgedOperator;
  log_sink : list LogRecord
}.

Definition M (A : Type) : Type := world -> result A * world.

#[global] Instance M_ret : MRet M := fun A a σ => (Ok a, σ).
#[global] Instance M_bind : MBind M := fun A B f m σ =>
  match m σ with
  | (Ok a, σ') => f a σ'
  | (Raise e, σ') => (Raise e, σ')
  end.

(** A computation on local values only. *)
Definition lift {A : Type} (r : result A) : M A := fun σ => (r, σ).

(** [self.h_1_op] and [self.h_chol_ops] *)
Definition self_h_1_op : M OperatorBase :=
  fun σ => (Ok (h_1_op (self σ)), σ).
Definition self_h_chol_ops : M (option (list OperatorBase)) :=
  fun σ => (Ok (h_chol_ops (self σ)), σ).

(** [Log.log(msg, n)] *)
Definition Log_log (msg : string) (n : nat) : M unit :=
  fun σ => (Ok tt, World (self σ) (log_sink σ ++ [(msg, n)])).

(** ** [ForgedOperator.construct] *)

(** [l[i]] on a list. *)
Definition list_getitem {A : Type} (l : list A) (i : nat) : result A :=
  match l !! i with
  | Some x => Ok x
  | None => Raise IndexError
  end.

(** [{label: weight for label, weight in op.primitive.to_list()
      if np.abs(weight) > 0}] *)
Definition paulis_of (op : OperatorBase) : dict complex :=
  dict_of_items
    (filter (fun lw : string * complex => abs_gt_0 lw.2 = true)
            (to_list (primitive op))).

(** Truth value of a dictionary: it is not empty. *)
Definition truthy {V : Type} (d : dict V) : bool :=
  match d with
  | [] => false
  | _ :: _ => true
  end.

(** The body of the loop that collects the labels; the third component is
    the loop's local [pnames], unbound before the first iteration. *)
Definition collect_step
    (acc : gset string * gset string * option (list string))
    (it : nat * dict complex)
  : gset string * gset string * option (list string) :=
  let '(tensor_paulis, superpos_paulis, _) := acc in
  let '(op_idx, paulis_this_op) := it in
  let pnames := keys paulis_this_op in
  let tensor_paulis := tensor_paulis ∪ list_to_set pnames in
  let superpos_paulis :=
    if decide (0 < op_idx)%nat
    then superpos_paulis ∪ list_to_set pnames
    else superpos_paulis in
  (tensor_paulis, superpos_paulis, Some pnames).

(** [{pname: idx for idx, pname in enumerate(paulis)}] *)
Definition pauli_ordering (paulis : list string) : dict nat :=
  dict_of_items ((fun ip : nat * string => (ip.2, ip.1)) <$> enumerate paulis).

(** The body of the loop over the terms of the non-Cholesky operator. *)
Definition one_body_step (ordering_t : dict nat) (identity_idx : nat)
    (w_ij : matrix) (it : string * complex) : result matrix :=
  let '(pname_i, w_i) := it in
  i ← dict_getitem ordering_t pname_i;
  w_ij ← mat_add w_ij i identity_idx (real w_i);
  mat_add w_ij identity_idx i (real w_i).

(** The body of the inner loop over [pname_2, w_2]. *)
Definition pair_step (ordering_t ordering_s : dict nat) (i a : nat)
    (w_1 : complex) (ws : matrix * matrix) (it : string * complex)
  : result (matrix * matrix) :=
  let '(w_ij, w_ab) := ws in
  let '(pname_2, w_2) := it in
  j ← dict_getitem ordering_t pname_2;
  b ← dict_getitem ordering_s pname_2;
  w_ij ← mat_add w_ij i j (real (cmul w_1 w_2));
  w_ab ← mat_add w_ab a b (real (cmul w_1 w_2));
  mret (w_ij, w_ab).

(** The body of the loop over [pname_1, w_1]. *)
Definition row_step (ordering_t ordering_s : dict nat)
    (paulis_this_gamma : dict complex) (ws : matrix * matrix)
    (it : string * complex) : result (matrix * matrix) :=
  let '(pname_1, w_1) := it in
  i ← dict_getitem ordering_t pname_1;
  a ← dict_getitem ordering_s pname_1;
  for_each (pair_step ordering_t ordering_s i a w_1) paulis_this_gamma ws.

(** The body of the loop over the Cholesky operators. *)
Definition gamma_step (ordering_t ordering_s : dict nat)
    (ws : matrix * matrix) (paulis_this_gamma : dict complex)
  : result (matrix * matrix) :=
  for_each (row_step ordering_t ordering_s paulis_this_gamma)
           paulis_this_gamma ws.

(** The tuple [construct] returns. *)
Record Forged : Type := {
  tensor_paulis : list string;
  superpos_paulis : list string;
  w_ij : matrix;
  w_ab : matrix
}.

Definition construct : M Forged :=
  h_1 ← self_h_1_op;
  let hamiltonian_ops := [h_1] in
  chol ← self_h_chol_ops;
  let hamiltonian_ops :=
    match chol with
    | Some ops => fold_left (fun acc chol_op => acc ++ [chol_op]) ops hamiltonian_ops
    | None => hamiltonian_ops
    end in
  op1 ← lift (list_getitem hamiltonian_ops 0);
  let cholesky_ops := drop 1 hamiltonian_ops in
  let tensor_paulis : gset string := ∅ in
  let superpos_paulis : gset string := ∅ in
  let paulis_each_op := paulis_of <$> ([op1] ++ cholesky_ops) in
  p0 ← lift (list_getitem paulis_each_op 0);
  let paulis_each_op :=
    [p0] ++ filter (fun p => truthy p = true) (drop 1 paulis_each_op) in
  let '(tensor_paulis, superpos_paulis, pnames) :=
    fold_left collect_step (enumerate paulis_each_op)
              (tensor_paulis, superpos_paulis, None) in
  pnames ← lift (match pnames with
                 | Some l => Ok l
                 | None => Raise UnboundLocalError
                 end);
  pname0 ← lift (list_getitem pnames 0);
  let identity_string := str_mul "I" (String.length pname0) in
  let tensor_paulis := tensor_paulis ∪ {[identity_string]} in
  _ ← Log_log "num paulis for tensor states:" (size tensor_paulis);
  _ ← Log_log "num paulis for superpos states:" (size superpos_paulis);
  let tensor_paulis := sorted tensor_paulis in
  let superpos_paulis := sorted superpos_paulis in
  let pauli_ordering_for_tensor_states := pauli_ordering tensor_paulis in
  let pauli_ordering_for_superpos_states := pauli_ordering superpos_paulis in
  let w_ij := zeros (length tensor_paulis) (length tensor_paulis) in
  let w_ab := zeros (length superpos_paulis) (length superpos_paulis) in
  identity_idx ← lift (dict_getitem pauli_ordering_for_tensor_states identity_string);
  op0 ← lift (list_getitem paulis_each_op 0);
  w_ij ← lift (for_each (one_body_step pauli_ordering_for_tensor_states identity_idx)
                        op0 w_ij);
  '(w_ij, w_ab) ← lift (for_each (gamma_step pauli_ordering_for_tensor_states
                                             pauli_ordering_for_superpos_states)
                                 (drop 1 paulis_each_op) (w_ij, w_ab));
  mret {| tensor_paulis := tensor_paulis; superpos_paulis := superpos_paulis;
         w_ij := w_ij; w_ab := w_ab |}.

(** ** [ForgedOperator.__init__]

    [OrbitalsToReduce] and [get_fermionic_ops_with_cholesky] are imported
    from modules that are not part of the verified sources: they are
    parameters here, and may raise. *)

Section Init.
Context {X3 X4 X5 : Type}.
Variable OrbitalsToReduce_init :
  list Z -> QMolecule -> result OrbitalsToReduce.
Variable get_fermionic_ops_with_cholesky :
  list (list Q) -> list (list Q) -> list (list (list (list Q))) ->
  string -> bool -> list Z -> list Z -> Q ->
  result (OperatorBase * option (list OperatorBase) * X3 * X4 * X5).

Definition ForgedOperator_init (qmolecule : QMolecule)
    (all_orbitals_to_reduce : list Z) : result ForgedOperator :=
  orbitals_to_reduce ← OrbitalsToReduce_init all_orbitals_to_reduce qmolecule;
  let epsilon_cholesky := 1 # 10000000000 in
  fermionic_results ←
    get_fermionic_ops_with_cholesky
      (mo_coeff qmolecule) (hcore qmolecule) (eri qmolecule)
      "H" true
      (occupied orbitals_to_reduce) (virtual orbitals_to_reduce)
      epsilon_cholesky;
  let '(h_1_op, h_chol_ops, _, _, _) := fermionic_results in
  if decide (num_alpha qmolecule = num_beta qmolecule)
  then Ok {| qmolecule := qmolecule;
             all_orbitals_to_reduce := all_orbitals_to_reduce;
             orbitals_to_reduce := orbitals_to_reduce;
             epsilon_cholesky := epsilon_cholesky;
             h_1_op := h_1_op;
             h_chol_ops := h_chol_ops |}
  else Raise AssertionError.
End Init.

(** ** A toy instance *)

Definition op_of (items : list (string * complex)) : OperatorBase :=
  {| primitive := {| to_list := items |} |}.

Definition instance_of (h_1 : OperatorBase)
    (chol : option (list OperatorBase)) : ForgedOperator :=
  {| qmolecule := {| mo_coeff := []; hcore := []; eri := [];
                     num_alpha := 1; num_beta := 1 |};
     all_orbitals_to_reduce := [];
     orbitals_to_reduce := {| occupied := []; virtual := [] |};
     epsilon_cholesky := 1 # 10000000000;
     h_1_op := h_1;
     h_chol_ops := chol |}.

Definition toy : ForgedOperator :=
  instance_of
    (op_of [("IIII", Complex 0 0); ("IIZI", Complex (3 # 10) 0)])
    (Some [op_of [("IIZI", Complex (1 # 2) 0); ("IXXI", Complex (1 # 5) 0)]]).


(** * Vocabulary of the statements *)

(** ** The strict order on labels *)

(** Strictly below, in the order of [sorted]. *)
Definition str_lt (s1 s2 : string) : Prop := String.ltb s1 s2 = true.

(** ** Histories of the cells of a matrix *)

(** The values added to each cell, in the order they were added. *)
Definition history : Type := nat -> nat -> list Q.

(** The history of [w[i, j] += v]. *)
Definition cell (i j : nat) (v : Q) : history :=
  fun a b => if decide (a = i /\ b = j) then [v] else [].

(** [w] is an [n] by [m] matrix whose cells hold the sums of [h], added
    from zero in order. *)
Definition holds (n m : nat) (w : matrix) (h : history) : Prop :=
  length w = n /\
  Forall (fun row => length row = m) w /\
  forall a b, (a < n)%nat -> (b < m)%nat ->
    entry w a b = Some (fold_left Qplus (h a b) 0).

(** The weight, in [d], of the label at position [i] of [paulis]. *)
Definition at_index (paulis : list string) (d : dict complex) (i : nat)
  : option complex :=
  p ← paulis !! i; dict_get d p.

(** The position the table [ordering] gives to a label. *)
Definition index_of (ordering : dict nat) (p : string) : nat :=
  default 0%nat (dict_get ordering p).

(** The history each loop body appends, for a matrix indexed through
    [ix]. *)
Definition A_one (ix : string -> nat) (identity_idx : nat)
    (h : history) (it : string * complex) : history :=
  fun a b => h a b ++ (cell (ix it.1) identity_idx (real it.2) a b
                       ++ cell identity_idx (ix it.1) (real it.2) a b).

Definition A_pair (ix : string -> nat) (i : nat) (w_1 : complex)
    (h : history) (it : string * complex) : history :=
  fun a b => h a b ++ cell i (ix it.1) (real (cmul w_1 it.2)) a b.

Definition A_row (ix : string -> nat) (paulis_this_gamma : dict complex)
    (h : history) (it : string * complex) : history :=
  fold_left (A_pair ix (ix it.1) it.2) paulis_this_gamma h.

Definition A_gamma (ix : string -> nat) (h : history)
    (paulis_this_gamma : dict complex) : history :=
  fold_left (A_row ix paulis_this_gamma) paulis_this_gamma h.

(** Every label of [d] is given a position inside the matrix. *)
Definition covered (ordering : dict nat) (n : nat) (d : dict complex) : Prop :=
  forall p, p ∈ keys d ->
    exists i, dict_get ordering p = Some i /\ (i < n)%nat.

(** The two matrices of the Cholesky loops, side by side. *)
Definition holds2 (n_t n_s : nat) (ws : matrix * matrix)
    (hs : history * history) : Prop :=
  holds n_t n_t ws.1 hs.1 /\ holds n_s n_s ws.2 hs.2.

(** What the non-Cholesky operator [d0] adds to the cell [(a, b)]. *)
Definition one_vals (paulis : list string) (d0 : dict complex)
    (identity_idx : nat) : history :=
  fun a b =>
    (if decide (b = identity_idx)
     then match at_index paulis d0 a with Some w => [real w] | None => [] end
     else [])
    ++ (if decide (a = identity_idx)
        then match at_index paulis d0 b with Some w => [real w] | None => [] end
        else []).

(** What one Cholesky operator adds to the cell [(a, b)]. *)
Definition two_vals (paulis : list string) (paulis_this_gamma : dict complex)
  : history :=
  fun a b =>
    match at_index paulis paulis_this_gamma a,
          at_index paulis paulis_this_gamma b with
    | Some w_1, Some w_2 => [real (cmul w_1 w_2)]
    | _, _ => []
    end.

(** The table [ix] sends each label of [d] to its position in [paulis],
    and to no other. *)
Definition ix_ok (paulis : list string) (ix : string -> nat) (d : dict complex)
  : Prop :=
  forall p, p ∈ keys d -> forall i, i = ix p <-> paulis !! i = Some p.

(** ** The dictionaries and labels of an instance *)

(** The set of labels of a dictionary. *)
Definition keyset (d : dict complex) : gset string := list_to_set (keys d).

(** The Cholesky operators of the instance. *)
Definition chol_list (fo : ForgedOperator) : list OperatorBase :=
  match h_chol_ops fo with
  | Some ops => ops
  | None => []
  end.

(** [paulis_each_op[0]] and [paulis_each_op[1:]] after the empty
    dictionaries are dropped. *)
Definition one_body (fo : ForgedOperator) : dict complex :=
  paulis_of (h_1_op fo).
Definition factors (fo : ForgedOperator) : list (dict complex) :=
  filter (fun p => truthy p = true) (paulis_of <$> chol_list fo).

(** The dictionary the collecting loop sees last. *)
Definition last_dict (fo : ForgedOperator) : dict complex :=
  default (one_body fo) (last (factors fo)).

(** The label [identity_string] is computed from. *)
Definition identity_of (pname0 : string) : string :=
  str_mul "I" (String.length pname0).

(** The two sets of labels before they are sorted. *)
Definition superpos_set (fo : ForgedOperator) : gset string :=
  ⋃ (keyset <$> factors fo).
Definition tensor_set (fo : ForgedOperator) (pname0 : string) : gset string :=
  keyset (one_body fo) ∪ superpos_set fo ∪ {[identity_of pname0]}.

(** The two log records of a run that gets to them. *)
Definition log_records (fo : ForgedOperator) (pname0 : string)
  : list LogRecord :=
  [("num paulis for tensor states:", size (tensor_set fo pname0));
   ("num paulis for superpos states:", size (superpos_set fo))].

(** ** Instances and collaborators of the examples *)

(** What [construct] returns on [toy], and the world it leaves. *)
Definition toy_forged : Forged :=
  {| tensor_paulis := ["IIII"; "IIZI"; "IXXI"];
     superpos_paulis := ["IIZI"; "IXXI"];
     w_ij := [[0; 3 # 10; 0];
              [3 # 10; 1 # 4; 1 # 10];
              [0; 1 # 10; 1 # 25]];
     w_ab := [[1 # 4; 1 # 10];
              [1 # 10; 1 # 25]] |}.

Definition toy_logged : world :=
  World toy [("num paulis for tensor states:", 3%nat);
             ("num paulis for superpos states:", 2%nat)].

(** An instance whose operators have no term of nonzero weight. *)
Definition hollow : ForgedOperator :=
  instance_of (op_of [("IIII", Complex 0 0)]) (Some [op_of []]).

(** A molecule with the given electron counts. *)
Definition molecule (n_alpha n_beta : Z) : QMolecule :=
  {| mo_coeff := []; hcore := []; eri := [];
     num_alpha := n_alpha; num_beta := n_beta |}.

(** Collaborators that return: no orbital is reduced, and the operators
    are those of the toy instance. *)
Definition no_reduction (_ : list Z) (_ : QMolecule) : result OrbitalsToReduce :=
  Ok {| occupied := []; virtual := [] |}.

Definition toy_cholesky (_ _ : list (list Q)) (_ : list (list (list (list Q))))
    (_ : string) (_ : bool) (_ _ : list Z) (_ : Q)
  : result (OperatorBase * option (list OperatorBase) * unit * unit * unit) :=
  Ok (h_1_op toy, h_chol_ops toy, tt, tt, tt).

(** ** Well-formed and equivalent inputs *)

(** Every label of every operator has [n] characters. *)
Definition uniform (n : nat) (fo : ForgedOperator) : Prop :=
  forall op p w, op ∈ h_1_op fo :: chol_list fo ->
                 (p, w) ∈ to_list (primitive op) -> String.length p = n.

(** The records a run logs: two when it returns, none when it raises. *)
Definition logged (r : result Forged) : list LogRecord :=
  match r with
  | Ok out =>
      [("num paulis for tensor states:", length (tensor_paulis out));
       ("num paulis for superpos states:", length (superpos_paulis out))]
  | Raise _ => []
  end.

(** An instance with no list of Cholesky operators. *)
Definition lone : ForgedOperator :=
  instance_of (op_of [("IIZI", Complex (3 # 10) 0)]) None.

(** Two operators give each label the same weight, or both none. *)
Definition same_mapping (op1 op2 : OperatorBase) : Prop :=
  forall p, dict_get (paulis_of op1) p = dict_get (paulis_of op2) p.

(** Two instances whose operators do, one by one. *)
Definition same_terms (fo1 fo2 : ForgedOperator) : Prop :=
  same_mapping (h_1_op fo1) (h_1_op fo2) /\
  Forall2 same_mapping (chol_list fo1) (chol_list fo2).

(** The toy instance with the terms of each operator in the other order. *)
Definition toy_reordered : ForgedOperator :=
  instance_of
    (op_of [("IIZI", Complex (3 # 10) 0); ("IIII", Complex 0 0)])
    (Some [op_of [("IXXI", Complex (1 # 5) 0); ("IIZI", Complex (1 # 2) 0)]]).

(** ** The values of the cells *)

(** The weight the one-body dictionary gives a label, 0 when it has none. *)
Definition one_weight (d0 : dict complex) (p : string) : Q :=
  match dict_get d0 p with
  | Some w => real w
  | None => 0
  end.

(** [Re(w_1 * w_2)] for the weights one dictionary gives two labels, 0 when
    one of them has none. *)
Definition pair_weight (d : dict complex) (p q : string) : Q :=
  match dict_get d p, dict_get d q with
  | Some w_1, Some w_2 => real (cmul w_1 w_2)
  | _, _ => 0
  end.

(** The sum of [pair_weight] over a list of dictionaries. *)
Fixpoint chol_sum (ds : list (dict complex)) (p q : string) : Q :=
  match ds with
  | [] => 0
  | d :: ds' => pair_weight d p q + chol_sum ds' p q
  end.

(** * [construct] on binary64 numbers

    The definitions of [construct] again, word for word, with the
    arithmetic of the source: weights are pairs of binary64 numbers,
    products, differences and sums are rounded, and the cells start at
    [0.0]. *)

Module Float64.

Record complex : Type := Complex { real : float; imag : float }.

(** [w_1 * w_2] on complex numbers: each product and each sum is rounded. *)
Definition cmul (w1 w2 : complex) : complex :=
  Complex (real w1 * real w2 - imag w1 * imag w2)%float
          (real w1 * imag w2 + imag w1 * real w2)%float.

(** [np.abs(weight) > 0].  The modulus is [hypot(re, im)]: infinite when a
    component is infinite, else NaN when one is NaN (and [NaN > 0] is
    false), else positive exactly when a component is not zero. *)
Definition abs_gt_0 (w : complex) : bool :=
  if is_infinity (real w) || is_infinity (imag w) then true
  else if is_nan (real w) || is_nan (imag w) then false
  else negb (is_zero (real w) && is_zero (imag w)).

(** [np.zeros((n, m))] *)
Definition zeros (n m : nat) : list (list float) :=
  replicate n (replicate m 0%float).

(** [w[i, j] += v]; numpy raises [IndexError] out of range. *)
Definition mat_add (w : list (list float)) (i j : nat) (v : float)
  : result (list (list float)) :=
  match w !! i with
  | None => Raise IndexError
  | Some row =>
      match row !! j with
      | None => Raise IndexError
      | Some x => Ok (<[i := <[j := (x + v)%float]> row]> w)
      end
  end.

(** [w[i, j]], when in range. *)
Definition entry (w : list (list float)) (i j : nat) : option float :=
  row ← w !! i; row !! j.

Record PauliSumOp : Type := { to_list : list (string * complex) }.
Record OperatorBase : Type := { primitive : PauliSumOp }.

(** The attributes of the instance that [construct] reads. *)
Record ForgedOperator : Type := {
  h_1_op : OperatorBase;
  h_chol_ops : option (list OperatorBase)
}.

Record world : Type := World {
  self : ForgedOperator;
  log_sink : list LogRecord
}.

Definition M (A : Type) : Type := world -> result A * world.

#[global] Instance M_ret : MRet M := fun A a σ => (Ok a, σ).
#[global] Instance M_bind : MBind M := fun A B f m σ =>
  match m σ with
  | (Ok a, σ') => f a σ'
  | (Raise e, σ') => (Raise e, σ')
  end.

Definition lift {A : Type} (r : result A) : M A := fun σ => (r, σ).

Definition self_h_1_op : M OperatorBase :=
  fun σ => (Ok (h_1_op (self σ)), σ).
Definition self_h_chol_ops : M (option (list OperatorBase)) :=
  fun σ => (Ok (h_chol_ops (self σ)), σ).

Definition Log_log (msg : string) (n : nat) : M unit :=
  fun σ => (Ok tt, World (self σ) (log_sink σ ++ [(msg, n)])).

Definition paulis_of (op : OperatorBase) : dict complex :=
  dict_of_items
    (filter (fun lw : string * complex => abs_gt_0 lw.2 = true)
            (to_list (primitive op))).

Definition collect_step
    (acc : gset string * gset string * option (list string))
    (it : nat * dict complex)
  : gset string * gset string * option (list string) :=
  let '(tensor_paulis, superpos_paulis, _) := acc in
  let '(op_idx, paulis_this_op) := it in
  let pnames := keys paulis_this_op in
  let tensor_paulis := tensor_paulis ∪ list_to_set pnames in
  let superpos_paulis :=
    if decide (0 < op_idx)%nat
    then superpos_paulis ∪ list_to_set pnames
    else superpos_paulis in
  (tensor_paulis, superpos_paulis, Some pnames).

Definition one_body_step (ordering_t : dict nat) (identity_idx : nat)
    (w_ij : list (list float)) (it : string * complex)
  : result (list (list float)) :=
  let '(pname_i, w_i) := it in
  i ← dict_getitem ordering_t pname_i;
  w_ij ← mat_add w_ij i identity_idx (real w_i);
  mat_add w_ij identity_idx i (real w_i).

Definition pair_step (ordering_t ordering_s : dict nat) (i a : nat)
    (w_1 : complex) (ws : list (list float) * list (list float))
    (it : string * complex)
  : result (list (list float) * list (list float)) :=
  let '(w_ij, w_ab) := ws in
  let '(pname_2, w_2) := it in
  j ← dict_getitem ordering_t pname_2;
  b ← dict_getitem ordering_s pname_2;
  w_ij ← mat_add w_ij i j (real (cmul w_1 w_2));
  w_ab ← mat_add w_ab a b (real (cmul w_1 w_2));
  mret (w_ij, w_ab).

Definition row_step (ordering_t ordering_s : dict nat)
    (paulis_this_gamma : dict complex)
    (ws : list (list float) * list (list float))
    (it : string * complex)
  : result (list (list float) * list (list float)) :=
  let '(pname_1, w_1) := it in
  i ← dict_getitem ordering_t pname_1;
  a ← dict_getitem ordering_s pname_1;
  for_each (pair_step ordering_t ordering_s i a w_1) paulis_this_gamma ws.

Definition gamma_step (ordering_t ordering_s : dict nat)
    (ws : list (list float) * list (list float))
    (paulis_this_gamma : dict complex)
  : result (list (list float) * list (list float)) :=
  for_each (row_step ordering_t ordering_s paulis_this_gamma)
           paulis_this_gamma ws.

Record Forged : Type := {
  tensor_paulis : list string;
  superpos_paulis : list string;
  w_ij : list (list float);
  w_ab : list (list float)
}.

Definition construct : M Forged :=
  h_1 ← self_h_1_op;
  let hamiltonian_ops := [h_1] in
  chol ← self_h_chol_ops;
  let hamiltonian_ops :=
    match chol with
    | Some ops => fold_left (fun acc chol_op => acc ++ [chol_op]) ops hamiltonian_ops
    | None => hamiltonian_ops
    end in
  op1 ← lift (list_getitem hamiltonian_ops 0);
  let cholesky_ops := drop 1 hamiltonian_ops in
  let tensor_paulis : gset string := ∅ in
  let superpos_paulis : gset string := ∅ in
  let paulis_each_op := paulis_of <$> ([op1] ++ cholesky_ops) in
  p0 ← lift (list_getitem paulis_each_op 0);
  let paulis_each_op :=
    [p0] ++ filter (fun p => truthy p = true) (drop 1 paulis_each_op) in
  let '(tensor_paulis, superpos_paulis, pnames) :=
    fold_left collect_step (enumerate paulis_each_op)
              (tensor_paulis, superpos_paulis, None) in
  pnames ← lift (match pnames with
                 | Some l => Ok l
                 | None => Raise UnboundLocalError
                 end);
  pname0 ← lift (list_getitem pnames 0);
  let identity_string := str_mul "I" (String.length pname0) in
  let tensor_paulis := tensor_paulis ∪ {[identity_string]} in
  _ ← Log_log "num paulis for tensor states:" (size tensor_paulis);
  _ ← Log_log "num paulis for superpos states:" (size superpos_paulis);
  let tensor_paulis := sorted tensor_paulis in
  let superpos_paulis := sorted superpos_paulis in
  let pauli_ordering_for_tensor_states := pauli_ordering tensor_paulis in
  let pauli_ordering_for_superpos_states := pauli_ordering superpos_paulis in
  let w_ij := zeros (length tensor_paulis) (length tensor_paulis) in
  let w_ab := zeros (length superpos_paulis) (length superpos_paulis) in
  identity_idx ← lift (dict_getitem pauli_ordering_for_tensor_states identity_string);
  op0 ← lift (list_getitem paulis_each_op 0);
  w_ij ← lift (for_each (one_body_step pauli_ordering_for_tensor_states identity_idx)
                        op0 w_ij);
  '(w_ij, w_ab) ← lift (for_each (gamma_step pauli_ordering_for_tensor_states
                                             pauli_ordering_for_superpos_states)
                                 (drop 1 paulis_each_op) (w_ij, w_ab));
  mret {| tensor_paulis := tensor_paulis; superpos_paulis := superpos_paulis;
         w_ij := w_ij; w_ab := w_ab |}.

Definition op_of (items : list (string * complex)) : OperatorBase :=
  {| primitive := {| to_list := items |} |}.

(** The toy instance: the one-body operator has the terms IIII (weight 0)
    and IIZI (weight 0.3), the one Cholesky operator IIZI (0.5) and
    IXXI (0.2). *)
Definition toy : ForgedOperator :=
  {| h_1_op := op_of [("IIII", Complex 0 0); ("IIZI", Complex 0.3 0)];
     h_chol_ops :=
       Some [op_of [("IIZI", Complex 0.5 0); ("IXXI", Complex 0.2 0)]] |}.

End Float64.

(** ** Further vocabulary *)

(** Some operator of the instance has a term of nonzero weight. *)
Definition has_term (fo : ForgedOperator) : Prop :=
  exists op p w, op ∈ h_1_op fo :: chol_list fo /\
                 (p, w) ∈ to_list (primitive op) /\ abs_gt_0 w = true.

(** The weights of nonzero modulus that the terms of an operator give to
    the label [p], in the order of the terms. *)
Definition weights_of (op : OperatorBase) (p : string) : list complex :=
  omap (fun lw : string * complex =>
          if decide (lw.1 = p) then
            if abs_gt_0 lw.2 then Some lw.2 else None
          else None)
       (to_list (primitive op)).

(** The instance without the Cholesky operators that have no term of
    nonzero weight. *)
Definition prune (fo : ForgedOperator) : ForgedOperator :=
  {| qmolecule := qmolecule fo;
     all_orbitals_to_reduce := all_orbitals_to_reduce fo;
     orbitals_to_reduce := orbitals_to_reduce fo;
     epsilon_cholesky := epsilon_cholesky fo;
     h_1_op := h_1_op fo;
     h_chol_ops :=
       Some (filter (fun op => truthy (paulis_of op) = true) (chol_list fo)) |}.

(** The instance with another list of Cholesky operators. *)
Definition with_chol (fo : ForgedOperator) (ops : list OperatorBase)
  : ForgedOperator :=
  {| qmolecule := qmolecule fo;
     all_orbitals_to_reduce := all_orbitals_to_reduce fo;
     orbitals_to_reduce := orbitals_to_reduce fo;
     epsilon_cholesky := epsilon_cholesky fo;
     h_1_op := h_1_op fo;
     h_chol_ops := Some ops |}.

(** Two dictionaries give each label the same weight, or both none. *)
Definition same_dict (d1 d2 : dict complex) : Prop :=
  forall p, dict_get d1 p = dict_get d2 p.

(** Every weight of every operator is a real number. *)
Definition real_weights (fo : ForgedOperator) : Prop :=
  forall op p w, op ∈ h_1_op fo :: chol_list fo ->
                 (p, w) ∈ to_list (primitive op) -> imag w == 0.

(** The toy instance with one more Cholesky operator. *)
Definition second_chol : OperatorBase :=
  op_of [("IIZI", Complex (1 # 3) 0); ("ZIII", Complex 0 (1 # 2))].
Definition first_chol : OperatorBase :=
  op_of [("IIZI", Complex (1 # 2) 0); ("IXXI", Complex (1 # 5) 0)].
Definition toy_two : ForgedOperator :=
  with_chol toy [first_chol; second_chol].

(** The operators whose dictionaries the collecting loop goes through:
    the one-body operator, then the Cholesky operators that have a term of
    nonzero weight. *)
Definition kept_ops (fo : ForgedOperator) : list OperatorBase :=
  h_1_op fo :: filter (fun op => truthy (paulis_of op) = true) (chol_list fo).

(** The terms of nonzero weight of an operator, in order. *)
Definition nonzero_terms (op : OperatorBase) : list (string * complex) :=
  filter (fun lw : string * complex => abs_gt_0 lw.2 = true)
         (to_list (primitive op)).

(** An instance whose last Cholesky operator has shorter labels. *)
Definition ragged : ForgedOperator :=
  instance_of
    (op_of [("IIZI", Complex (3 # 10) 0)])
    (Some [op_of [("IXXI", Complex (1 # 5) 0)];
           op_of [("ZZ", Complex 0 0); ("XY", Complex 1 0)]]).

(** * Properties *)

(** ** Loops *)

Lemma fold_left_snoc {A : Type} (ops acc : list A) :
  fold_left (fun acc x => acc ++ [x]) ops acc = acc ++ ops.
Proof.
  revert acc. induction ops as [|x ops IH]; intros acc; simpl.
  - by rewrite app_nil_r.
  - rewrite IH. by rewrite <- app_assoc.
Qed.

Lemma bind_Ok {A B : Type} (a : A) (f : A -> result B) : (Ok a ≫= f) = f a.
Proof. done. Qed.

(** A loop whose body refines an action [C] on an abstract state runs to
    its end and refines the iterated action. *)
Lemma for_each_refines {A S X : Type} (Rep : S -> X -> Prop)
    (body : S -> A -> result S) (C : X -> A -> X) (l : list A) :
  (forall x s f, x ∈ l -> Rep s f -> exists s', body s x = Ok s' /\ Rep s' (C f x)) ->
  forall s f, Rep s f ->
  exists s', for_each body l s = Ok s' /\ Rep s' (fold_left C l f).
Proof.
  induction l as [|x l IH]; intros Hbody s f Hrep; simpl.
  - eauto.
  - destruct (Hbody x s f) as (s1 & -> & Hrep1); [left | done |].
    apply IH; [| done].
    intros y s2 f2 Hy. apply Hbody. by right.
Qed.

(** ** Dictionaries *)

Section Dict.
Context {V : Type}.
Implicit Types (d : dict V) (k : string) (v : V).

Lemma keys_dict_set k v d k' :
  k' ∈ keys (dict_set k v d) <-> k' = k \/ k' ∈ keys d.
Proof.
  unfold keys. induction d as [|[k0 v0] d IH]; simpl.
  - set_solver.
  - destruct (decide (k0 = k)) as [->|Hne]; simpl; set_solver.
Qed.

Lemma NoDup_dict_set k v d : NoDup (keys d) -> NoDup (keys (dict_set k v d)).
Proof.
  unfold keys. induction d as [|[k0 v0] d IH]; simpl; intros Hnd.
  - apply NoDup_singleton.
  - apply NoDup_cons in Hnd as [Hk0 Hnd].
    destruct (decide (k0 = k)) as [->|Hne]; simpl.
    + by apply NoDup_cons.
    + apply NoDup_cons. split; [| by apply IH].
      intros Hin. apply (keys_dict_set k v d k0) in Hin. naive_solver.
Qed.

Lemma dict_get_set k v d k' :
  dict_get (dict_set k v d) k' = if decide (k = k') then Some v else dict_get d k'.
Proof.
  induction d as [|[k0 v0] d IH]; simpl.
  - by destruct (decide (k = k')).
  - destruct (decide (k0 = k)) as [->|Hne]; simpl.
    + by destruct (decide (k = k')).
    + destruct (decide (k0 = k')) as [->|Hne'].
      * by rewrite decide_False by done.
      * done.
Qed.

Lemma dict_get_Some_elem d k v : dict_get d k = Some v -> (k, v) ∈ d.
Proof.
  induction d as [|[k0 v0] d IH]; simpl; [done |].
  destruct (decide (k0 = k)) as [->|Hne].
  - intros [= ->]. left.
  - intros Hg. right. by apply IH.
Qed.

Lemma dict_get_is_Some d k : is_Some (dict_get d k) <-> k ∈ keys d.
Proof.
  unfold keys. induction d as [|[k0 v0] d IH]; simpl.
  - rewrite is_Some_alt. set_solver.
  - destruct (decide (k0 = k)) as [->|Hne].
    + split; [set_solver | eauto].
    + rewrite IH. set_solver.
Qed.

Lemma dict_get_None d k : dict_get d k = None <-> k ∉ keys d.
Proof. rewrite <- dict_get_is_Some, eq_None_not_Some. done. Qed.

Lemma elem_dict_get d k v : NoDup (keys d) -> (k, v) ∈ d -> dict_get d k = Some v.
Proof.
  unfold keys. induction d as [|[k0 v0] d IH]; simpl; intros Hnd Hin.
  - by apply elem_of_nil in Hin.
  - apply NoDup_cons in Hnd as [Hk0 Hnd].
    apply elem_of_cons in Hin as [[= -> ->]|Hin].
    + by rewrite decide_True.
    + rewrite decide_False; [by apply IH |].
      intros ->. apply Hk0. apply list_elem_of_fmap. by exists (k, v).
Qed.

Lemma keys_fold_dict_set (items : list (string * V)) d k :
  k ∈ keys (fold_left (fun d kv => dict_set kv.1 kv.2 d) items d)
  <-> k ∈ keys d \/ k ∈ items.*1.
Proof.
  revert d. induction items as [|[k0 v0] items IH]; intros d; simpl.
  - set_solver.
  - rewrite IH, keys_dict_set. set_solver.
Qed.

Lemma NoDup_fold_dict_set (items : list (string * V)) d :
  NoDup (keys d) ->
  NoDup (keys (fold_left (fun d kv => dict_set kv.1 kv.2 d) items d)).
Proof.
  revert d. induction items as [|[k0 v0] items IH]; intros d Hnd; simpl.
  - done.
  - apply IH. by apply NoDup_dict_set.
Qed.

Lemma keys_dict_of_items (items : list (string * V)) k :
  k ∈ keys (dict_of_items items) <-> k ∈ items.*1.
Proof. unfold dict_of_items. rewrite keys_fold_dict_set. set_solver. Qed.

Lemma NoDup_dict_of_items (items : list (string * V)) :
  NoDup (keys (dict_of_items items)).
Proof. apply NoDup_fold_dict_set. apply NoDup_nil_2. Qed.

(** With distinct keys in [items], nothing is overwritten. *)
Lemma dict_get_fold_fresh (items : list (string * V)) d k :
  NoDup items.*1 -> (forall k', k' ∈ items.*1 -> k' ∉ keys d) ->
  dict_get (fold_left (fun d kv => dict_set kv.1 kv.2 d) items d) k
  = match dict_get d k with
    | Some v => Some v
    | None => dict_get items k
    end.
Proof.
  revert d. induction items as [|[k0 v0] items IH]; intros d Hnd Hfresh; simpl.
  - by destruct (dict_get d k).
  - simpl in Hnd. apply NoDup_cons in Hnd as [Hk0 Hnd].
    rewrite IH; [| done |].
    + rewrite dict_get_set.
      destruct (decide (k0 = k)) as [->|Hne].
      * assert (dict_get d k = None) as ->; [| done].
        apply dict_get_None. apply Hfresh. simpl. left.
      * done.
    + intros k' Hk'. rewrite keys_dict_set. intros [->|Hin]; [done |].
      revert Hin. apply Hfresh. simpl. by right.
Qed.

Lemma dict_get_of_items (items : list (string * V)) k :
  NoDup items.*1 -> dict_get (dict_of_items items) k = dict_get items k.
Proof.
  intros Hnd. unfold dict_of_items. rewrite dict_get_fold_fresh; [done | done |].
  intros k' _. unfold keys. simpl. apply not_elem_of_nil.
Qed.
End Dict.

(** ** The order on labels and [sorted] *)

Lemma str_le_lt_eq s1 s2 : str_le s1 s2 <-> str_lt s1 s2 \/ s1 = s2.
Proof.
  unfold str_le, str_lt, String.leb, String.ltb.
  destruct (String.compare s1 s2) eqn:Hc.
  - apply String.compare_eq_iff in Hc. naive_solver.
  - naive_solver.
  - split; [done |]. intros [? | ->]; [done |].
    pose proof (String.compare_antisym s2 s2) as Ha.
    rewrite Hc in Ha. discriminate.
Qed.

Lemma str_lt_trans s1 s2 s3 : str_lt s1 s2 -> str_lt s2 s3 -> str_lt s1 s3.
Proof.
  unfold str_lt, String.ltb. intros H12 H23.
  assert (String_as_OT.lt s1 s2) as L12.
  { unfold String_as_OT.lt. change String_as_OT.compare with String.compare.
    by destruct (String.compare s1 s2). }
  assert (String_as_OT.lt s2 s3) as L23.
  { unfold String_as_OT.lt. change String_as_OT.compare with String.compare.
    by destruct (String.compare s2 s3). }
  pose proof (StrictOrder_Transitive (R := String_as_OT.lt) _ _ _ L12 L23) as L13.
  unfold String_as_OT.lt in L13.
  change String_as_OT.compare with String.compare in L13. by rewrite L13.
Qed.

Lemma str_lt_irrefl s : ~ str_lt s s.
Proof.
  unfold str_lt, String.ltb. intros H.
  assert (String_as_OT.lt s s) as L.
  { unfold String_as_OT.lt. change String_as_OT.compare with String.compare.
    by destruct (String.compare s s). }
  by apply (StrictOrder_Irreflexive (R := String_as_OT.lt)) in L.
Qed.

#[global] Instance str_le_total : Total str_le.
Proof. intros s1 s2. apply String.leb_total. Qed.

#[global] Instance str_le_trans : Transitive str_le.
Proof.
  intros s1 s2 s3. rewrite !str_le_lt_eq.
  intros [H12 | ->] [H23 | ->]; eauto using str_lt_trans.
Qed.

#[global] Instance str_le_antisym : AntiSymm (=) str_le.
Proof. intros s1 s2. apply String.leb_antisym. Qed.

Lemma elem_of_sorted (s : gset string) (p : string) : p ∈ sorted s <-> p ∈ s.
Proof.
  unfold sorted. rewrite merge_sort_Permutation. apply elem_of_elements.
Qed.

Lemma NoDup_sorted (s : gset string) : NoDup (sorted s).
Proof.
  unfold sorted. rewrite merge_sort_Permutation. apply NoDup_elements.
Qed.

Lemma length_sorted (s : gset string) : length (sorted s) = size s.
Proof. unfold sorted. by rewrite merge_sort_Permutation. Qed.

Lemma sorted_le (s : gset string) : StronglySorted str_le (sorted s).
Proof. unfold sorted. apply StronglySorted_merge_sort; apply _. Qed.

(** In a list that is sorted and has no duplicates, the order is strict. *)
Lemma StronglySorted_strict (l : list string) :
  StronglySorted str_le l -> NoDup l -> StronglySorted str_lt l.
Proof.
  induction 1 as [|x l Hs IH Hall]; intros Hnd.
  - constructor.
  - apply NoDup_cons in Hnd as [Hx Hnd]. constructor; [by apply IH |].
    rewrite Forall_forall in Hall |- *. intros y Hy.
    destruct (proj1 (str_le_lt_eq x y) (Hall y Hy)) as [Hlt | ->]; [done |].
    by destruct Hx.
Qed.

Lemma sorted_lt (s : gset string) : StronglySorted str_lt (sorted s).
Proof. apply StronglySorted_strict; [apply sorted_le | apply NoDup_sorted]. Qed.

(** The sorted list of a set of labels depends on the set only. *)
Lemma sorted_unique (l : list string) (s : gset string) :
  StronglySorted str_le l -> NoDup l -> (forall p, p ∈ l <-> p ∈ s) -> l = sorted s.
Proof.
  intros Hs Hnd Hel. apply (Sorted_unique str_le).
  - by apply StronglySorted_Sorted.
  - apply StronglySorted_Sorted, sorted_le.
  - apply NoDup_Permutation; [done | apply NoDup_sorted |].
    intros p. by rewrite Hel, elem_of_sorted.
Qed.

(** ** The index tables *)

Lemma lookup_enumerate {A : Type} (l : list A) (i j : nat) (x : A) :
  enumerate l !! i = Some (j, x) <-> j = i /\ l !! i = Some x.
Proof.
  unfold enumerate. rewrite lookup_zip_with.
  destruct (seq 0 (length l) !! i) as [j'|] eqn:Hseq; simpl.
  - apply lookup_seq in Hseq as [-> Hlt].
    destruct (l !! i) as [y|]; simpl; naive_solver.
  - destruct (l !! i) as [y|] eqn:Hl; [| naive_solver].
    apply lookup_lt_Some in Hl.
    destruct (lookup_lt_is_Some_2 (seq 0 (length l)) i) as [? ?]; [| congruence].
    by rewrite length_seq.
Qed.

Lemma keys_swap_enumerate (paulis : list string) :
  ((fun ip : nat * string => (ip.2, ip.1)) <$> enumerate paulis).*1 = paulis.
Proof.
  rewrite <- list_fmap_compose. unfold enumerate.
  transitivity ((zip (seq 0 (length paulis)) paulis).*2).
  - apply list_fmap_ext. by intros ? [? ?] ?.
  - apply snd_zip. by rewrite length_seq.
Qed.

(** Looking a label up in the table built from a duplicate-free list gives
    its position in the list. *)
Lemma pauli_ordering_spec (paulis : list string) (p : string) (i : nat) :
  NoDup paulis ->
  dict_get (pauli_ordering paulis) p = Some i <-> paulis !! i = Some p.
Proof.
  intros Hnd. unfold pauli_ordering.
  rewrite dict_get_of_items by (by rewrite keys_swap_enumerate).
  split.
  - intros Hg. apply dict_get_Some_elem in Hg.
    apply list_elem_of_fmap in Hg as ([j q] & [= -> ->] & Hin).
    apply list_elem_of_lookup in Hin as [k Hk].
    apply lookup_enumerate in Hk as [-> Hk]. done.
  - intros Hl. apply elem_dict_get.
    + unfold keys. by rewrite keys_swap_enumerate.
    + apply list_elem_of_fmap. exists (i, p). split; [done |].
      apply list_elem_of_lookup. exists i. by apply lookup_enumerate.
Qed.

Lemma pauli_ordering_elem (paulis : list string) (p : string) :
  NoDup paulis -> p ∈ paulis ->
  exists i, dict_getitem (pauli_ordering paulis) p = Ok i /\ paulis !! i = Some p.
Proof.
  intros Hnd Hin. apply list_elem_of_lookup in Hin as [i Hi].
  exists i. split; [| done]. unfold dict_getitem.
  by rewrite (proj2 (pauli_ordering_spec paulis p i Hnd) Hi).
Qed.

(** ** Matrices and the history of their cells *)

Lemma holds_ext n m w h h' :
  (forall a b, h a b = h' a b) -> holds n m w h -> holds n m w h'.
Proof.
  intros Hext (Hlen & Hrows & Hent). split; [done |]. split; [done |].
  intros a b Ha Hb. rewrite <- Hext. by apply Hent.
Qed.

Lemma holds_zeros n m : holds n m (zeros n m) (fun _ _ => []).
Proof.
  unfold zeros. split; [apply length_replicate |]. split.
  - apply Forall_forall. intros row Hrow.
    apply elem_of_replicate in Hrow as [-> _]. apply length_replicate.
  - intros a b Ha Hb. unfold entry.
    assert (replicate n (replicate m 0%Q) !! a = Some (replicate m 0%Q)) as ->
      by (by apply lookup_replicate).
    simpl. by apply lookup_replicate.
Qed.

Lemma mat_add_holds n m w h i j v :
  holds n m w h -> (i < n)%nat -> (j < m)%nat ->
  exists w', mat_add w i j v = Ok w' /\
             holds n m w' (fun a b => h a b ++ cell i j v a b).
Proof.
  intros (Hlen & Hrows & Hent) Hi Hj.
  destruct (lookup_lt_is_Some_2 w i) as [row Hrow]; [lia |].
  assert (length row = m) as Hlrow.
  { rewrite Forall_forall in Hrows. apply Hrows.
    apply list_elem_of_lookup. eauto. }
  destruct (lookup_lt_is_Some_2 row j) as [x Hx]; [lia |].
  unfold mat_add. rewrite Hrow, Hx. eexists. split; [done |].
  split; [by rewrite length_insert |]. split.
  - apply Forall_insert; [done |]. by rewrite length_insert.
  - intros a b Ha Hb. unfold entry, cell.
    destruct (decide (a = i)) as [->|Hai].
    + rewrite list_lookup_insert_eq by lia. simpl.
      destruct (decide (b = j)) as [->|Hbj].
      * rewrite list_lookup_insert_eq by lia.
        rewrite decide_True by done. rewrite fold_left_app. simpl.
        specialize (Hent i j Hi Hj). unfold entry in Hent.
        rewrite Hrow in Hent. simpl in Hent. rewrite Hx in Hent.
        by injection Hent as ->.
      * rewrite list_lookup_insert_ne by done.
        rewrite decide_False by naive_solver. rewrite app_nil_r.
        specialize (Hent i b Hi Hb). unfold entry in Hent.
        by rewrite Hrow in Hent.
    + rewrite list_lookup_insert_ne by done.
      rewrite decide_False by naive_solver. rewrite app_nil_r.
      by apply Hent.
Qed.

(** An action that appends to the history appends, when iterated, what it
    appends at each step. *)
Lemma fold_left_history {A : Type} (C : history -> A -> history)
    (c : A -> history) (l : list A) (h : history) (a b : nat) :
  (forall h x, x ∈ l -> C h x a b = h a b ++ c x a b) ->
  fold_left C l h a b = h a b ++ flat_map (fun x => c x a b) l.
Proof.
  revert h. induction l as [|x l IH]; intros h HC; simpl.
  - by rewrite app_nil_r.
  - rewrite IH by (intros h' y Hy; apply HC; by right).
    rewrite HC by left. by rewrite <- app_assoc.
Qed.

Lemma fold_left_prod {A X Y : Type} (f : X -> A -> X) (g : Y -> A -> Y)
    (l : list A) (x : X) (y : Y) :
  fold_left (fun xy a => (f xy.1 a, g xy.2 a)) l (x, y)
  = (fold_left f l x, fold_left g l y).
Proof.
  revert x y. induction l as [|a l IH]; intros x y; simpl; [done |].
  apply IH.
Qed.

(** ** Selecting the term of a dictionary that sits at an index *)

Section Select.
Context {B : Type} (paulis : list string) (ix : string -> nat).

Lemma flat_map_none (d : dict complex) (a : nat) (g : complex -> list B) :
  (forall p, p ∈ keys d -> a ≠ ix p) ->
  flat_map (fun pw : string * complex =>
              if decide (a = ix pw.1) then g pw.2 else []) d = [].
Proof.
  unfold keys. induction d as [|[p w] d IH]; simpl; intros Hno; [done |].
  rewrite decide_False by (apply Hno; left).
  rewrite IH; [done |]. intros q Hq. apply Hno. by right.
Qed.

Lemma flat_map_select (d : dict complex) (a : nat) (g : complex -> list B) :
  NoDup (keys d) ->
  (forall p, p ∈ keys d -> forall i, i = ix p <-> paulis !! i = Some p) ->
  flat_map (fun pw : string * complex =>
              if decide (a = ix pw.1) then g pw.2 else []) d
  = match at_index paulis d a with
    | Some w => g w
    | None => []
    end.
Proof.
  unfold keys, at_index.
  induction d as [|[p w] d IH]; simpl; intros Hnd Hix.
  - by destruct (paulis !! a).
  - apply NoDup_cons in Hnd as [Hp Hnd].
    assert (forall q, q ∈ d.*1 -> forall i, i = ix q <-> paulis !! i = Some q)
      as Hix' by (intros q Hq; apply Hix; by right).
    destruct (decide (a = ix p)) as [Ha|Ha].
    + apply (Hix p) in Ha as Hl; [| left]. rewrite Hl. simpl.
      rewrite decide_True by done.
      rewrite flat_map_none; [by rewrite app_nil_r |].
      intros q Hq Haq. apply Hix' in Haq; [| done].
      rewrite Hl in Haq. injection Haq as ->. done.
    + simpl. rewrite IH by done.
      destruct (paulis !! a) as [q|] eqn:Hq; simpl; [| done].
      rewrite decide_False; [done |].
      intros ->. apply Ha. apply Hix; [left | done].
Qed.
End Select.

(** ** What the loops of [construct] add to each cell *)

Section LoopsRefine.
Variables (ordering_t ordering_s : dict nat) (n_t n_s : nat).

Let ix_t := index_of ordering_t.
Let ix_s := index_of ordering_s.

Lemma covered_getitem ordering n d p w :
  covered ordering n d -> (p, w) ∈ d ->
  dict_getitem ordering p = Ok (index_of ordering p) /\
  (index_of ordering p < n)%nat.
Proof.
  intros Hcov Hin. destruct (Hcov p) as (i & Hi & Hlt).
  { unfold keys. apply list_elem_of_fmap. by exists (p, w). }
  unfold dict_getitem, index_of. rewrite Hi. done.
Qed.

Lemma one_body_loop_refines identity_idx d w h :
  covered ordering_t n_t d -> (identity_idx < n_t)%nat ->
  holds n_t n_t w h ->
  exists w', for_each (one_body_step ordering_t identity_idx) d w = Ok w' /\
             holds n_t n_t w' (fold_left (A_one ix_t identity_idx) d h).
Proof.
  intros Hcov Hid. revert w h.
  apply (for_each_refines (holds n_t n_t)).
  intros [p wt] w h Hin Hw. unfold one_body_step.
  destruct (covered_getitem _ _ _ _ _ Hcov Hin) as [-> Hlt]. rewrite bind_Ok.
  destruct (mat_add_holds _ _ _ _ (index_of ordering_t p) identity_idx
              (real wt) Hw Hlt Hid) as (w1 & -> & Hw1). rewrite bind_Ok.
  destruct (mat_add_holds _ _ _ _ identity_idx (index_of ordering_t p)
              (real wt) Hw1 Hid Hlt) as (w2 & -> & Hw2).
  exists w2. split; [done |]. revert Hw2. apply holds_ext.
  intros a b. unfold A_one, ix_t. simpl. by rewrite <- app_assoc.
Qed.

Lemma pair_loop_refines i a w_1 d ws hs :
  covered ordering_t n_t d -> covered ordering_s n_s d ->
  (i < n_t)%nat -> (a < n_s)%nat -> holds2 n_t n_s ws hs ->
  exists ws', for_each (pair_step ordering_t ordering_s i a w_1) d ws = Ok ws' /\
              holds2 n_t n_s ws' (fold_left (A_pair ix_t i w_1) d hs.1,
                          fold_left (A_pair ix_s a w_1) d hs.2).
Proof.
  intros Hct Hcs Hi Ha Hws.
  rewrite <- fold_left_prod, <- surjective_pairing.
  revert ws hs Hws. apply (for_each_refines (holds2 n_t n_s)).
  intros [p2 w_2] [w_ij w_ab] [h_t h_s] Hin [Ht Hs]. simpl in Ht, Hs.
  unfold pair_step.
  destruct (covered_getitem _ _ _ _ _ Hct Hin) as [-> Hj].
  destruct (covered_getitem _ _ _ _ _ Hcs Hin) as [-> Hb]. rewrite !bind_Ok.
  destruct (mat_add_holds _ _ _ _ i (index_of ordering_t p2)
              (real (cmul w_1 w_2)) Ht Hi Hj) as (w1 & -> & Hw1). rewrite bind_Ok.
  destruct (mat_add_holds _ _ _ _ a (index_of ordering_s p2)
              (real (cmul w_1 w_2)) Hs Ha Hb) as (w2 & -> & Hw2). rewrite bind_Ok.
  exists (w1, w2). split; [done |]. split; simpl; done.
Qed.

Lemma row_loop_refines d d' ws hs :
  covered ordering_t n_t d -> covered ordering_s n_s d ->
  covered ordering_t n_t d' -> covered ordering_s n_s d' ->
  holds2 n_t n_s ws hs ->
  exists ws', for_each (row_step ordering_t ordering_s d) d' ws = Ok ws' /\
              holds2 n_t n_s ws' (fold_left (A_row ix_t d) d' hs.1,
                          fold_left (A_row ix_s d) d' hs.2).
Proof.
  intros Hct Hcs Hct' Hcs' Hws.
  rewrite <- fold_left_prod, <- surjective_pairing.
  revert ws hs Hws. apply (for_each_refines (holds2 n_t n_s)).
  intros [p1 w_1] ws hs Hin Hws. unfold row_step.
  destruct (covered_getitem _ _ _ _ _ Hct' Hin) as [-> Hi].
  destruct (covered_getitem _ _ _ _ _ Hcs' Hin) as [-> Ha]. rewrite !bind_Ok.
  by apply pair_loop_refines.
Qed.

Lemma gamma_loop_refines (ds : list (dict complex)) ws hs :
  Forall (covered ordering_t n_t) ds -> Forall (covered ordering_s n_s) ds ->
  holds2 n_t n_s ws hs ->
  exists ws', for_each (gamma_step ordering_t ordering_s) ds ws = Ok ws' /\
              holds2 n_t n_s ws' (fold_left (A_gamma ix_t) ds hs.1,
                          fold_left (A_gamma ix_s) ds hs.2).
Proof.
  intros Hct Hcs Hws.
  rewrite <- fold_left_prod, <- surjective_pairing.
  revert ws hs Hws. apply (for_each_refines (holds2 n_t n_s)).
  intros d ws hs Hin Hws. unfold gamma_step.
  rewrite Forall_forall in Hct, Hcs.
  by apply row_loop_refines; auto.
Qed.
End LoopsRefine.

(** ** The closed form of the histories *)

Lemma cell_split i j v a b :
  cell i j v a b = if decide (a = i) then if decide (b = j) then [v] else [] else [].
Proof.
  unfold cell. destruct (decide (a = i)), (decide (b = j));
    [by rewrite decide_True | by rewrite decide_False by naive_solver ..].
Qed.

Lemma flat_map_nil {A B : Type} (l : list A) :
  flat_map (fun _ : A => @nil B) l = [].
Proof. by induction l. Qed.

Section Closed.
Variables (paulis : list string) (ix : string -> nat).

Lemma A_one_closed identity_idx d0 h a b :
  NoDup (keys d0) -> ix_ok paulis ix d0 ->
  fold_left (A_one ix identity_idx) d0 h a b
  = h a b ++ one_vals paulis d0 identity_idx a b.
Proof.
  intros Hnd Hix.
  rewrite (fold_left_history _
             (fun it => fun a b => cell (ix it.1) identity_idx (real it.2) a b
                                   ++ cell identity_idx (ix it.1) (real it.2) a b))
    by done.
  f_equal. unfold one_vals.
  destruct (decide (b = identity_idx)) as [Hb|Hb],
           (decide (a = identity_idx)) as [Ha|Ha].
  - subst a b.
    transitivity (match at_index paulis d0 identity_idx with
                  | Some w => [real w; real w]
                  | None => []
                  end); [| by destruct (at_index paulis d0 identity_idx)].
    rewrite <- (flat_map_select paulis ix d0 identity_idx
                  (fun w => [real w; real w])) by done.
    apply flat_map_ext. intros [p w]. rewrite !cell_split. simpl.
    by repeat case_decide.
  - subst b. rewrite app_nil_r.
    rewrite <- (flat_map_select paulis ix d0 a (fun w => [real w])) by done.
    apply flat_map_ext. intros [p w]. rewrite !cell_split. simpl.
    by repeat case_decide.
  - subst a. simpl.
    rewrite <- (flat_map_select paulis ix d0 b (fun w => [real w])) by done.
    apply flat_map_ext. intros [p w]. rewrite !cell_split. simpl.
    by repeat case_decide.
  - simpl. rewrite <- (flat_map_nil (B := Q) d0).
    apply flat_map_ext. intros [p w]. rewrite !cell_split. simpl.
    by repeat case_decide.
Qed.

Lemma A_gamma_one_closed d h a b :
  NoDup (keys d) -> ix_ok paulis ix d ->
  A_gamma ix h d a b = h a b ++ two_vals paulis d a b.
Proof.
  intros Hnd Hix. unfold A_gamma.
  rewrite (fold_left_history _
             (fun it1 => fun a b =>
                flat_map (fun it2 : string * complex =>
                            cell (ix it1.1) (ix it2.1)
                                 (real (cmul it1.2 it2.2)) a b) d)).
  2:{ intros h' it1 _. unfold A_row.
      by rewrite (fold_left_history _
                    (fun it2 => cell (ix it1.1) (ix it2.1)
                                     (real (cmul it1.2 it2.2)))). }
  f_equal. unfold two_vals.
  rewrite <- (flat_map_select paulis ix d a
                (fun w_1 => match at_index paulis d b with
                            | Some w_2 => [real (cmul w_1 w_2)]
                            | None => []
                            end)) by done.
  apply flat_map_ext. intros [p1 w_1]. cbn [fst snd].
  destruct (decide (a = ix p1)) as [Ha|Ha].
  - rewrite <- (flat_map_select paulis ix d b
                  (fun w_2 => [real (cmul w_1 w_2)])) by done.
    apply flat_map_ext. intros [p2 w_2]. rewrite cell_split. cbn [fst snd].
    by rewrite decide_True by done.
  - rewrite <- (flat_map_nil (B := Q) d).
    apply flat_map_ext. intros [p2 w_2]. rewrite cell_split.
    by rewrite decide_False by done.
Qed.

Lemma A_gamma_closed (ds : list (dict complex)) h a b :
  Forall (fun d => NoDup (keys d)) ds -> Forall (ix_ok paulis ix) ds ->
  fold_left (A_gamma ix) ds h a b
  = h a b ++ flat_map (fun d => two_vals paulis d a b) ds.
Proof.
  intros Hnd Hix. rewrite Forall_forall in Hnd, Hix.
  apply (fold_left_history (A_gamma ix) (two_vals paulis)).
  intros h' d Hd. apply A_gamma_one_closed; auto.
Qed.
End Closed.

(** ** The labels [construct] collects *)

Lemma collect_from (k : nat) (l : list (dict complex))
    (t s : gset string) (pn : option (list string)) :
  (0 < k)%nat ->
  fold_left collect_step (zip (seq k (length l)) l) (t, s, pn)
  = (t ∪ ⋃ (keyset <$> l), s ∪ ⋃ (keyset <$> l),
     match last l with Some d => Some (keys d) | None => pn end).
Proof.
  revert k t s pn. induction l as [|d l IH]; intros k t s pn Hk; simpl.
  - by rewrite !(right_id_L ∅ (∪)).
  - rewrite decide_True by done. rewrite IH by lia.
    rewrite <- !(assoc_L (∪)). f_equal.
    rewrite last_cons. by destruct (last l).
Qed.

Lemma collect_all (d0 : dict complex) (ds : list (dict complex)) :
  fold_left collect_step (enumerate (d0 :: ds)) (∅, ∅, None)
  = (keyset d0 ∪ ⋃ (keyset <$> ds), ⋃ (keyset <$> ds),
     Some (keys (default d0 (last ds)))).
Proof.
  unfold enumerate. simpl.
  rewrite collect_from by lia. rewrite !(left_id_L ∅ (∪)).
  by destruct (last ds).
Qed.

(** ** The index tables cover the labels *)

Lemma ordering_covered (paulis : list string) (d : dict complex) :
  NoDup paulis -> (forall p, p ∈ keys d -> p ∈ paulis) ->
  covered (pauli_ordering paulis) (length paulis) d /\
  ix_ok paulis (index_of (pauli_ordering paulis)) d.
Proof.
  intros Hnd Hsub. split.
  - intros p Hp. apply Hsub, list_elem_of_lookup in Hp as [i Hi].
    exists i. split; [by apply pauli_ordering_spec |].
    by apply lookup_lt_Some in Hi.
  - intros p Hp i. apply Hsub, list_elem_of_lookup in Hp as [j Hj].
    unfold index_of.
    rewrite (proj2 (pauli_ordering_spec paulis p j Hnd) Hj). simpl.
    split; [by intros -> |]. intros Hi.
    by apply (NoDup_lookup paulis i j p).
Qed.

Lemma NoDup_paulis_of (op : OperatorBase) : NoDup (keys (paulis_of op)).
Proof. apply NoDup_dict_of_items. Qed.

Lemma NoDup_factors (fo : ForgedOperator) :
  Forall (fun d => NoDup (keys d)) (factors fo).
Proof.
  apply Forall_forall. intros d Hd. unfold factors in Hd.
  apply list_elem_of_filter in Hd as [_ Hd].
  apply list_elem_of_fmap in Hd as (op & -> & _). apply NoDup_paulis_of.
Qed.

Lemma keys_factor_superpos (fo : ForgedOperator) (d : dict complex) (p : string) :
  d ∈ factors fo -> p ∈ keys d -> p ∈ superpos_set fo.
Proof.
  intros Hd Hp. unfold superpos_set. apply elem_of_union_list.
  exists (keyset d). split; [by apply list_elem_of_fmap_2 |].
  unfold keyset. by apply elem_of_list_to_set.
Qed.

(** ** Running [construct] *)

Lemma M_bind_lift {A B : Type} (r : result A) (f : A -> M B) (σ : world) :
  (lift r ≫= f) σ = match r with Ok a => f a σ | Raise e => (Raise e, σ) end.
Proof. unfold mbind, M_bind, lift. by destruct r. Qed.

Lemma M_bind_h_1_op {B : Type} (f : OperatorBase -> M B) (σ : world) :
  (self_h_1_op ≫= f) σ = f (h_1_op (self σ)) σ.
Proof. done. Qed.

Lemma M_bind_h_chol_ops {B : Type} (f : option (list OperatorBase) -> M B)
    (σ : world) :
  (self_h_chol_ops ≫= f) σ = f (h_chol_ops (self σ)) σ.
Proof. done. Qed.

Lemma M_bind_log {B : Type} (msg : string) (n : nat) (f : unit -> M B)
    (σ : world) :
  (Log_log msg n ≫= f) σ = f tt (World (self σ) (log_sink σ ++ [(msg, n)])).
Proof. done. Qed.

Lemma hamiltonian_ops_eq (fo : ForgedOperator) :
  match h_chol_ops fo with
  | Some ops => fold_left (fun acc chol_op => acc ++ [chol_op]) ops [h_1_op fo]
  | None => [h_1_op fo]
  end = h_1_op fo :: chol_list fo.
Proof.
  unfold chol_list. destruct (h_chol_ops fo) as [ops|]; [| done].
  by rewrite fold_left_snoc.
Qed.

(** The start of [construct], up to the lookup of [pnames[0]]. *)
Ltac run_to_pnames σ :=
  unfold construct;
  rewrite M_bind_h_1_op, M_bind_h_chol_ops, hamiltonian_ops_eq;
  rewrite M_bind_lift; cbn [list_getitem lookup list_lookup];
  rewrite M_bind_lift;
  change (paulis_of <$> [h_1_op (self σ)]
                        ++ drop 1 (h_1_op (self σ) :: chol_list (self σ)))
    with (one_body (self σ) :: (paulis_of <$> chol_list (self σ)));
  cbn [list_getitem lookup list_lookup];
  change ([one_body (self σ)]
            ++ filter (fun p => truthy p = true)
                 (drop 1 (one_body (self σ)
                            :: (paulis_of <$> chol_list (self σ)))))
    with (one_body (self σ) :: factors (self σ));
  rewrite collect_all; fold (last_dict (self σ)).

(** With nothing in the dictionary seen last, [pnames[0]] raises, before
    anything is logged. *)
Lemma construct_raises (fo : ForgedOperator) (logs : list LogRecord) :
  keys (last_dict fo) = [] ->
  construct (World fo logs) = (Raise IndexError, World fo logs).
Proof.
  intros Hlast. run_to_pnames (World fo logs). cbn [self]. rewrite Hlast.
  rewrite M_bind_lift, M_bind_lift. done.
Qed.

(** Otherwise [construct] returns: the labels are the sorted sets, the two
    records are logged, and each cell holds, added from zero in this order,
    the one-body values and then those of each Cholesky operator. *)
Lemma construct_returns (fo : ForgedOperator) (pname0 : string)
    (rest : list string) :
  keys (last_dict fo) = pname0 :: rest ->
  exists (identity_idx : nat) (w_ij w_ab : matrix),
    (forall logs : list LogRecord,
       construct (World fo logs)
       = (Ok {| tensor_paulis := sorted (tensor_set fo pname0);
                superpos_paulis := sorted (superpos_set fo);
                w_ij := w_ij; w_ab := w_ab |},
          World fo (logs ++ log_records fo pname0))) /\
    sorted (tensor_set fo pname0) !! identity_idx = Some (identity_of pname0) /\
    holds (length (sorted (tensor_set fo pname0)))
          (length (sorted (tensor_set fo pname0))) w_ij
          (fun a b =>
             one_vals (sorted (tensor_set fo pname0)) (one_body fo)
                      identity_idx a b
             ++ flat_map (fun d => two_vals (sorted (tensor_set fo pname0)) d a b)
                         (factors fo)) /\
    holds (length (sorted (superpos_set fo)))
          (length (sorted (superpos_set fo))) w_ab
          (fun a b =>
             flat_map (fun d => two_vals (sorted (superpos_set fo)) d a b)
                      (factors fo)).
Proof.
  intros Hlast.
  set (T := sorted (tensor_set fo pname0)).
  set (S := sorted (superpos_set fo)).
  assert (NoDup T) as HndT by apply NoDup_sorted.
  assert (NoDup S) as HndS by apply NoDup_sorted.
  assert (identity_of pname0 ∈ T) as Hid.
  { apply elem_of_sorted. unfold tensor_set. set_solver. }
  destruct (pauli_ordering_elem T _ HndT Hid) as (identity_idx & Hget & Hidx).
  assert (identity_idx < length T)%nat as Hlt by (by apply lookup_lt_Some in Hidx).
  (* the tables cover the labels of every dictionary *)
  destruct (ordering_covered T (one_body fo) HndT) as [Hcov0 Hix0].
  { intros p Hp. apply elem_of_sorted. unfold tensor_set, keyset.
    apply elem_of_union_l, elem_of_union_l. by apply elem_of_list_to_set. }
  assert (Forall (covered (pauli_ordering T) (length T)) (factors fo)
          /\ Forall (ix_ok T (index_of (pauli_ordering T))) (factors fo))
    as [HcovT HixT].
  { rewrite <- Forall_and. apply Forall_forall. intros d Hd.
    apply ordering_covered; [done |]. intros p Hp. apply elem_of_sorted.
    unfold tensor_set. apply elem_of_union_l, elem_of_union_r.
    by apply (keys_factor_superpos fo d). }
  assert (Forall (covered (pauli_ordering S) (length S)) (factors fo)
          /\ Forall (ix_ok S (index_of (pauli_ordering S))) (factors fo))
    as [HcovS HixS].
  { rewrite <- Forall_and. apply Forall_forall. intros d Hd.
    apply ordering_covered; [done |]. intros p Hp. apply elem_of_sorted.
    by apply (keys_factor_superpos fo d). }
  (* the loops *)
  destruct (one_body_loop_refines (pauli_ordering T) (length T) identity_idx
              (one_body fo) (zeros (length T) (length T)) (fun _ _ => [])
              Hcov0 Hlt (holds_zeros _ _)) as (w1 & Hrun1 & Hw1).
  destruct (gamma_loop_refines (pauli_ordering T) (pauli_ordering S)
              (length T) (length S) (factors fo)
              (w1, zeros (length S) (length S))
              (fold_left (A_one (index_of (pauli_ordering T)) identity_idx)
                         (one_body fo) (fun _ _ => []),
               fun _ _ => [])
              HcovT HcovS (conj Hw1 (holds_zeros _ _)))
    as ([w_ij w_ab] & Hrun2 & Hwij & Hwab).
  simpl in Hwij, Hwab.
  exists identity_idx, w_ij, w_ab. split; [| split; [done | split]].
  - intros logs. run_to_pnames (World fo logs). cbn [self]. rewrite Hlast.
    rewrite M_bind_lift, M_bind_lift. cbn [list_getitem lookup list_lookup].
    rewrite !M_bind_log.
    fold (identity_of pname0). fold (superpos_set fo).
    fold (tensor_set fo pname0). fold T. fold S.
    rewrite M_bind_lift, Hget, M_bind_lift, M_bind_lift.
    cbn [list_getitem lookup list_lookup].
    rewrite Hrun1, M_bind_lift.
    change (drop 1 (one_body fo :: factors fo)) with (factors fo).
    rewrite Hrun2. unfold mret, M_ret. cbn [self log_sink].
    unfold log_records. by rewrite <- app_assoc.
  - revert Hwij. apply holds_ext. intros a b.
    rewrite (A_gamma_closed T) by (done || apply NoDup_factors).
    rewrite (A_one_closed T) by (done || apply NoDup_paulis_of). done.
  - revert Hwab. apply holds_ext. intros a b.
    rewrite (A_gamma_closed S) by (done || apply NoDup_factors). done.
Qed.

(** ** Facts shared by the theorems *)

(** Every run of [construct] is one of the two above. *)
Lemma construct_inv (σ σ' : world) (out : Forged) :
  construct σ = (Ok out, σ') ->
  exists pname0 rest, keys (last_dict (self σ)) = pname0 :: rest.
Proof.
  destruct σ as [fo logs]. simpl. intros Hrun.
  destruct (keys (last_dict fo)) as [|pname0 rest] eqn:Hlast; [| eauto].
  rewrite (construct_raises fo logs Hlast) in Hrun. discriminate.
Qed.

(** The labels of the dictionary of an operator are the labels of its
    terms of nonzero weight. *)
Lemma keys_paulis_of (op : OperatorBase) (p : string) :
  p ∈ keys (paulis_of op)
  <-> exists w, (p, w) ∈ to_list (primitive op) /\ abs_gt_0 w = true.
Proof.
  unfold paulis_of. rewrite keys_dict_of_items, list_elem_of_fmap. split.
  - intros ([p' w] & -> & Hin). apply list_elem_of_filter in Hin as [Hnz Hin].
    by exists w.
  - intros (w & Hin & Hnz). exists (p, w). split; [done |].
    by apply list_elem_of_filter.
Qed.

Lemma truthy_keys {V : Type} (d : dict V) : truthy d = true <-> keys d ≠ [].
Proof. by destruct d. Qed.

Lemma elem_of_superpos_set (fo : ForgedOperator) (p : string) :
  p ∈ superpos_set fo
  <-> exists op w, op ∈ chol_list fo /\
                   (p, w) ∈ to_list (primitive op) /\ abs_gt_0 w = true.
Proof.
  unfold superpos_set. rewrite elem_of_union_list. split.
  - intros (X & HX & Hp). apply list_elem_of_fmap in HX as (d & -> & Hd).
    unfold factors in Hd. apply list_elem_of_filter in Hd as [_ Hd].
    apply list_elem_of_fmap in Hd as (op & -> & Hop).
    unfold keyset in Hp. apply elem_of_list_to_set in Hp.
    apply keys_paulis_of in Hp as (w & Hin & Hnz). eauto.
  - intros (op & w & Hop & Hin & Hnz).
    assert (p ∈ keys (paulis_of op)) as Hp by (apply keys_paulis_of; eauto).
    exists (keyset (paulis_of op)). split.
    + apply list_elem_of_fmap_2. unfold factors. apply list_elem_of_filter.
      split; [| by apply list_elem_of_fmap_2].
      apply truthy_keys. intros Hnil. rewrite Hnil in Hp.
      by apply elem_of_nil in Hp.
    + unfold keyset. by apply elem_of_list_to_set.
Qed.

Lemma last_dict_elem (fo : ForgedOperator) :
  last_dict fo ∈ one_body fo :: factors fo.
Proof.
  unfold last_dict. destruct (last (factors fo)) as [d|] eqn:Hl; simpl.
  - right. by apply last_Some_elem_of.
  - left.
Qed.

(** No term of nonzero weight anywhere: the dictionary seen last is empty. *)
Lemma last_dict_empty (fo : ForgedOperator) :
  (forall op p w, op ∈ h_1_op fo :: chol_list fo ->
                  (p, w) ∈ to_list (primitive op) -> abs_gt_0 w = false) ->
  keys (last_dict fo) = [].
Proof.
  intros Hzero.
  assert (forall op, op ∈ h_1_op fo :: chol_list fo -> keys (paulis_of op) = [])
    as Hnil.
  { intros op Hop. destruct (keys (paulis_of op)) as [|p l] eqn:Hk; [done |].
    assert (p ∈ keys (paulis_of op)) as Hp by (rewrite Hk; left).
    apply keys_paulis_of in Hp as (w & Hin & Hnz).
    rewrite (Hzero op p w Hop Hin) in Hnz. discriminate. }
  pose proof (last_dict_elem fo) as Hin.
  apply elem_of_cons in Hin as [-> | Hin].
  - apply Hnil. left.
  - unfold factors in Hin. apply list_elem_of_filter in Hin as [_ Hin].
    apply list_elem_of_fmap in Hin as (op & -> & Hop). apply Hnil. by right.
Qed.

(** * The toy scenario *)

(** In exact arithmetic the four cells of IIZI and IXXI are 1/4, 1/10,
    1/10 and 1/25. *)
Lemma toy_run_exact :
  construct (World toy [])
  = (Ok {| tensor_paulis := ["IIII"; "IIZI"; "IXXI"];
           superpos_paulis := ["IIZI"; "IXXI"];
           w_ij := [[0; 3 # 10; 0];
                    [3 # 10; 1 # 4; 1 # 10];
                    [0; 1 # 10; 1 # 25]];
           w_ab := [[1 # 4; 1 # 10];
                    [1 # 10; 1 # 25]] |},
     World toy [("num paulis for tensor states:", 3%nat);
                ("num paulis for superpos states:", 2%nat)]).
Proof. vm_compute. reflexivity. Qed.

(** C1, as the code has it.  On the toy input, [construct] on binary64
    numbers returns the labels IIII, IIZI, IXXI and IIZI, IXXI; [w_ij]
    holds 0.3 at (IIZI, IIII) and (IIII, IIZI); at the four pairs of IIZI
    and IXXI, [w_ij] and [w_ab] hold the rounded products [0.5 * 0.5],
    [0.5 * 0.2], [0.2 * 0.5] and [0.2 * 0.2]; every other cell is 0.  The
    first three products are the numbers 0.25, 0.1 and 0.1; the last is
    0.040000000000000008, the number next above 0.04. *)
Theorem toy_scenario_float64 :
  Float64.construct (Float64.World Float64.toy [])
  = (Ok {| Float64.tensor_paulis := ["IIII"; "IIZI"; "IXXI"];
           Float64.superpos_paulis := ["IIZI"; "IXXI"];
           Float64.w_ij := [[0; 0.3; 0];
                            [0.3; 0.5 * 0.5; 0.5 * 0.2];
                            [0; 0.2 * 0.5; 0.2 * 0.2]]%float;
           Float64.w_ab := [[0.5 * 0.5; 0.5 * 0.2];
                            [0.2 * 0.5; 0.2 * 0.2]]%float |},
     Float64.World Float64.toy
       [("num paulis for tensor states:", 3%nat);
        ("num paulis for superpos states:", 2%nat)]) /\
  (0.5 * 0.5 = 0.25)%float /\
  (0.5 * 0.2 = 0.1)%float /\
  (0.2 * 0.5 = 0.1)%float /\
  (0.2 * 0.2 = 0.040000000000000008)%float /\
  (0.040000000000000008 =? 0.04)%float = false.
Proof. repeat split; vm_compute; reflexivity. Qed.

(** C1, as stated, fails on the toy input: the cell of [w_ij] at
    (IXXI, IXXI), which is at position (2, 2), does not compare equal to
    0.04, and neither does the cell of [w_ab] at position (1, 1). *)
Lemma toy_scenario_not_0_04 :
  ~ (exists out σ' x,
       Float64.construct (Float64.World Float64.toy []) = (Ok out, σ') /\
       Float64.tensor_paulis out !! 2%nat = Some "IXXI" /\
       Float64.entry (Float64.w_ij out) 2 2 = Some x /\
       (x =? 0.04)%float = true) /\
  ~ (exists out σ' y,
       Float64.construct (Float64.World Float64.toy []) = (Ok out, σ') /\
       Float64.superpos_paulis out !! 1%nat = Some "IXXI" /\
       Float64.entry (Float64.w_ab out) 1 1 = Some y /\
       (y =? 0.04)%float = true).
Proof.
  assert (exists out σ',
            Float64.construct (Float64.World Float64.toy []) = (Ok out, σ') /\
            Float64.entry (Float64.w_ij out) 2 2
            = Some 0.040000000000000008%float /\
            Float64.entry (Float64.w_ab out) 1 1
            = Some 0.040000000000000008%float) as (out & σ' & Hrun & H22 & H11).
  { eexists _, _. split; [vm_compute; reflexivity |].
    split; vm_compute; reflexivity. }
  split.
  - intros (out' & σ'' & x & Hrun' & _ & Hx & Heq).
    rewrite Hrun in Hrun'. injection Hrun' as <- _.
    rewrite H22 in Hx. injection Hx as <-. vm_compute in Heq. discriminate.
  - intros (out' & σ'' & y & Hrun' & _ & Hy & Heq).
    rewrite Hrun in Hrun'. injection Hrun' as <- _.
    rewrite H11 in Hy. injection Hy as <-. vm_compute in Heq. discriminate.
Qed.

(** * Nothing to build from *)

(** C7, as the code has it.  When no operator has a term of nonzero weight,
    [construct] raises [IndexError], from [pnames[0]], and has logged
    nothing. *)
Theorem empty_operators_raise_IndexError (σ : world) :
  (forall op p w, op ∈ h_1_op (self σ) :: chol_list (self σ) ->
                  (p, w) ∈ to_list (primitive op) -> abs_gt_0 w = false) ->
  construct σ = (Raise IndexError, σ).
Proof.
  intros Hzero. destruct σ as [fo logs]. simpl in Hzero.
  apply construct_raises. by apply last_dict_empty.
Qed.

Lemma empty_operators_raise_IndexError_witness :
  construct (World hollow []) = (Raise IndexError, World hollow []).
Proof.
  apply (empty_operators_raise_IndexError (World hollow [])).
  intros op p w Hop Hin. simpl in Hop.
  apply elem_of_cons in Hop as [-> | Hop].
  - simpl in Hin. apply list_elem_of_singleton in Hin as [= -> ->]. done.
  - unfold chol_list in Hop. simpl in Hop.
    apply list_elem_of_singleton in Hop as ->. simpl in Hin.
    by apply elem_of_nil in Hin.
Defined.

(** C7, as stated, fails on [hollow]: no operator has a term of nonzero
    weight, and the exception raised is not an [EmptyOperatorError]. *)
Lemma empty_operators_not_EmptyOperatorError :
  (forall op p w, op ∈ h_1_op hollow :: chol_list hollow ->
                  (p, w) ∈ to_list (primitive op) -> abs_gt_0 w = false) /\
  ~ (exists e σ', construct (World hollow []) = (Raise e, σ') /\
                  exn_name e = "EmptyOperatorError").
Proof.
  split.
  - intros op p w Hop Hin. simpl in Hop.
    apply elem_of_cons in Hop as [-> | Hop].
    + simpl in Hin. apply list_elem_of_singleton in Hin as [= -> ->]. done.
    + unfold chol_list in Hop. simpl in Hop.
      apply list_elem_of_singleton in Hop as ->. simpl in Hin.
      by apply elem_of_nil in Hin.
  - intros (e & σ' & Hrun & Hname).
    assert (construct (World hollow []) = (Raise IndexError, World hollow []))
      as Hidx by (vm_compute; reflexivity).
    rewrite Hidx in Hrun. injection Hrun as <- _. discriminate.
Qed.

(** * Construction of the instance *)

(** C3, as the code has it.  When the orbital selection and the
    decomposition return, [__init__] returns the instance if
    [num_alpha == num_beta], and raises [AssertionError] otherwise. *)
Theorem init_checks_electron_counts {X3 X4 X5 : Type}
    (OrbitalsToReduce_init : list Z -> QMolecule -> result OrbitalsToReduce)
    (get_fermionic_ops_with_cholesky :
       list (list Q) -> list (list Q) -> list (list (list (list Q))) ->
       string -> bool -> list Z -> list Z -> Q ->
       result (OperatorBase * option (list OperatorBase) * X3 * X4 * X5))
    (qm : QMolecule) (orbs : list Z) (o : OrbitalsToReduce)
    (h_1 : OperatorBase) (chol : option (list OperatorBase))
    (x3 : X3) (x4 : X4) (x5 : X5) :
  OrbitalsToReduce_init orbs qm = Ok o ->
  get_fermionic_ops_with_cholesky (mo_coeff qm) (hcore qm) (eri qm) "H" true
    (occupied o) (virtual o) (1 # 10000000000) = Ok (h_1, chol, x3, x4, x5) ->
  (num_alpha qm = num_beta qm ->
   ForgedOperator_init OrbitalsToReduce_init get_fermionic_ops_with_cholesky
                       qm orbs
   = Ok {| qmolecule := qm; all_orbitals_to_reduce := orbs;
           orbitals_to_reduce := o; epsilon_cholesky := 1 # 10000000000;
           h_1_op := h_1; h_chol_ops := chol |}) /\
  (num_alpha qm ≠ num_beta qm ->
   ForgedOperator_init OrbitalsToReduce_init get_fermionic_ops_with_cholesky
                       qm orbs
   = Raise AssertionError).
Proof.
  intros Ho Hf. unfold ForgedOperator_init. rewrite Ho, bind_Ok, Hf, bind_Ok.
  split; intros Hcount.
  - by rewrite decide_True.
  - by rewrite decide_False.
Qed.

Lemma init_checks_electron_counts_witness :
  (ForgedOperator_init no_reduction toy_cholesky (molecule 1 1) []
   = Ok toy) /\
  (ForgedOperator_init no_reduction toy_cholesky (molecule 1 2) []
   = Raise AssertionError).
Proof.
  split.
  - apply (init_checks_electron_counts no_reduction toy_cholesky
             (molecule 1 1) [] {| occupied := []; virtual := [] |}
             (h_1_op toy) (h_chol_ops toy) tt tt tt);
      reflexivity.
  - apply (init_checks_electron_counts no_reduction toy_cholesky
             (molecule 1 2) [] {| occupied := []; virtual := [] |}
             (h_1_op toy) (h_chol_ops toy) tt tt tt);
      [reflexivity | reflexivity | simpl; lia].
Defined.

(** C3, as stated, fails on a molecule with one alpha and two beta
    electrons: the counts differ, and the exception raised is not a
    [PreconditionError]. *)
Lemma init_not_PreconditionError :
  num_alpha (molecule 1 2) ≠ num_beta (molecule 1 2) /\
  ~ (exists e, ForgedOperator_init no_reduction toy_cholesky (molecule 1 2) []
               = Raise e /\
               exn_name e = "PreconditionError").
Proof.
  split; [simpl; lia |].
  intros (e & Hrun & Hname).
  assert (ForgedOperator_init no_reduction toy_cholesky (molecule 1 2) []
          = Raise AssertionError) as Hassert by reflexivity.
  rewrite Hassert in Hrun. injection Hrun as <-. discriminate.
Qed.

(** * Shape and symmetry of the matrices *)








(** * The two lists of labels *)

Lemma dict_of_operator (fo : ForgedOperator) (d : dict complex) :
  d ∈ one_body fo :: factors fo ->
  exists op, op ∈ h_1_op fo :: chol_list fo /\ d = paulis_of op.
Proof.
  intros Hd. apply elem_of_cons in Hd as [-> | Hd].
  - exists (h_1_op fo). split; [left | done].
  - unfold factors in Hd. apply list_elem_of_filter in Hd as [_ Hd].
    apply list_elem_of_fmap in Hd as (op & -> & Hop).
    exists op. split; [by right | done].
Qed.

Lemma uniform_identity (n : nat) (fo : ForgedOperator) (pname0 : string)
    (rest : list string) :
  uniform n fo -> keys (last_dict fo) = pname0 :: rest ->
  identity_of pname0 = str_mul "I" n.
Proof.
  intros Huni Hlast.
  destruct (dict_of_operator fo _ (last_dict_elem fo)) as (op & Hop & Hd).
  assert (pname0 ∈ keys (paulis_of op)) as Hp.
  { rewrite <- Hd, Hlast. left. }
  apply keys_paulis_of in Hp as (w & Hin & _).
  unfold identity_of. by rewrite (Huni op pname0 w Hop Hin).
Qed.

(** C4.  When [construct] returns, [tensor_paulis] contains a label made
    of the letter I only, which is the identity label of [n] qubits when
    every label has [n] characters, whatever the weights are; each label of
    [superpos_paulis] is in [tensor_paulis], which is at least as long; and
    the labels of [superpos_paulis] are those that have a nonzero weight in
    one of the Cholesky operators. *)
Theorem label_lists_invariants (σ σ' : world) (out : Forged) :
  construct σ = (Ok out, σ') ->
  (exists n, str_mul "I" n ∈ tensor_paulis out) /\
  (forall n, uniform n (self σ) -> str_mul "I" n ∈ tensor_paulis out) /\
  (forall p, p ∈ superpos_paulis out -> p ∈ tensor_paulis out) /\
  (length (superpos_paulis out) <= length (tensor_paulis out))%nat /\
  (forall p, p ∈ superpos_paulis out
             <-> exists op w, op ∈ chol_list (self σ) /\
                              (p, w) ∈ to_list (primitive op) /\
                              abs_gt_0 w = true).
Proof.
  intros Hrun. destruct (construct_inv _ _ _ Hrun) as (pname0 & rest & Hlast).
  destruct σ as [fo logs]. simpl in Hlast. simpl.
  destruct (construct_returns fo pname0 rest Hlast)
    as (identity_idx & w1 & w2 & Hret & _ & _ & _).
  rewrite Hret in Hrun. injection Hrun as <- _. simpl.
  assert (identity_of pname0 ∈ sorted (tensor_set fo pname0)) as Hid.
  { apply elem_of_sorted. unfold tensor_set.
    apply elem_of_union_r. by apply elem_of_singleton. }
  assert (superpos_set fo ⊆ tensor_set fo pname0) as Hsub.
  { intros p Hp. unfold tensor_set.
    by apply elem_of_union_l, elem_of_union_r. }
  split; [| split; [| split; [| split]]].
  - by exists (String.length pname0).
  - intros n Huni. by rewrite <- (uniform_identity n fo pname0 rest).
  - intros p. rewrite !elem_of_sorted. apply Hsub.
  - rewrite !length_sorted. by apply subseteq_size.
  - intros p. rewrite elem_of_sorted. apply elem_of_superpos_set.
Qed.

Lemma label_lists_invariants_witness :
  (exists n, str_mul "I" n ∈ tensor_paulis toy_forged) /\
  (forall n, uniform n toy -> str_mul "I" n ∈ tensor_paulis toy_forged) /\
  (forall p, p ∈ superpos_paulis toy_forged -> p ∈ tensor_paulis toy_forged) /\
  (length (superpos_paulis toy_forged) <= length (tensor_paulis toy_forged))%nat /\
  (forall p, p ∈ superpos_paulis toy_forged
             <-> exists op w, op ∈ chol_list toy /\
                              (p, w) ∈ to_list (primitive op) /\
                              abs_gt_0 w = true).
Proof.
  apply (label_lists_invariants (World toy []) toy_logged toy_forged).
  vm_compute. reflexivity.
Defined.

(** * Repeated calls *)

(** C8.  A call of [construct] leaves the instance as it was, appends to the
    log the two records with the sizes of the two lists of labels (when it
    returns; nothing when it raises) and has no other effect; a second
    call, on the world the first one left, gives the same result. *)
Theorem construct_repeatable (σ σ' : world) (r : result Forged) :
  construct σ = (r, σ') ->
  self σ' = self σ /\
  log_sink σ' = log_sink σ ++ logged r /\
  construct σ' = (r, World (self σ) (log_sink σ' ++ logged r)).
Proof.
  destruct σ as [fo logs]. simpl. intros Hrun.
  destruct (keys (last_dict fo)) as [|pname0 rest] eqn:Hlast.
  - rewrite (construct_raises fo logs Hlast) in Hrun.
    injection Hrun as <- <-. simpl. rewrite !app_nil_r.
    split; [done |]. split; [done |]. by apply construct_raises.
  - destruct (construct_returns fo pname0 rest Hlast)
      as (identity_idx & w1 & w2 & Hret & _ & _ & _).
    rewrite Hret in Hrun. injection Hrun as <- <-. simpl.
    assert (log_records fo pname0
            = [("num paulis for tensor states:",
                length (sorted (tensor_set fo pname0)));
               ("num paulis for superpos states:",
                length (sorted (superpos_set fo)))]) as <-.
    { unfold log_records. by rewrite !length_sorted. }
    split; [done |]. split; [done |]. apply Hret.
Qed.

Lemma construct_repeatable_witness :
  self toy_logged = self (World toy []) /\
  log_sink toy_logged = log_sink (World toy []) ++ logged (Ok toy_forged) /\
  construct toy_logged
  = (Ok toy_forged,
     World (self (World toy []))
           (log_sink toy_logged ++ logged (Ok toy_forged))).
Proof.
  apply (construct_repeatable (World toy []) toy_logged (Ok toy_forged)).
  vm_compute. reflexivity.
Defined.

(** * No Cholesky operator *)

Lemma factors_nil (fo : ForgedOperator) :
  (forall op p w, op ∈ chol_list fo ->
                  (p, w) ∈ to_list (primitive op) -> abs_gt_0 w = false) ->
  factors fo = [].
Proof.
  intros Hzero. destruct (factors fo) as [|d ds] eqn:Hf; [done |].
  assert (d ∈ factors fo) as Hd by (rewrite Hf; left).
  unfold factors in Hd. apply list_elem_of_filter in Hd as [Ht Hd].
  apply list_elem_of_fmap in Hd as (op & -> & Hop).
  apply truthy_keys in Ht.
  destruct (keys (paulis_of op)) as [|p l] eqn:Hk; [done |].
  assert (p ∈ keys (paulis_of op)) as Hp by (rewrite Hk; left).
  apply keys_paulis_of in Hp as (w & Hin & Hnz).
  rewrite (Hzero op p w Hop Hin) in Hnz. discriminate.
Qed.

(** C10.  When there is no list of Cholesky operators, or none of them has a
    term of nonzero weight, and the one-body operator has one, [construct]
    returns; [superpos_paulis] is empty, [w_ab] has no row, and a cell of
    [w_ij] that is not zero lies in the row or in the column of the
    identity label. *)
Theorem one_body_only (σ : world) :
  (h_chol_ops (self σ) = None \/
   forall op p w, op ∈ chol_list (self σ) ->
                  (p, w) ∈ to_list (primitive op) -> abs_gt_0 w = false) ->
  (exists p w, (p, w) ∈ to_list (primitive (h_1_op (self σ))) /\
               abs_gt_0 w = true) ->
  exists (out : Forged) (σ' : world) (identity_idx : nat),
    construct σ = (Ok out, σ') /\
    superpos_paulis out = [] /\
    w_ab out = [] /\
    (exists n, tensor_paulis out !! identity_idx = Some (str_mul "I" n)) /\
    forall i j x, entry (w_ij out) i j = Some x -> ~ x == 0 ->
                  i = identity_idx \/ j = identity_idx.
Proof.
  destruct σ as [fo logs]. simpl. intros Hchol (p & w & Hin & Hnz).
  assert (factors fo = []) as Hf.
  { apply factors_nil. destruct Hchol as [Hnone | Hzero]; [| done].
    unfold chol_list. rewrite Hnone. intros op ? ? Hop.
    by apply elem_of_nil in Hop. }
  assert (p ∈ keys (last_dict fo)) as Hp.
  { unfold last_dict. rewrite Hf. simpl. apply keys_paulis_of. eauto. }
  destruct (keys (last_dict fo)) as [|pname0 rest] eqn:Hlast;
    [by apply elem_of_nil in Hp |].
  destruct (construct_returns fo pname0 rest Hlast)
    as (identity_idx & w1 & w2 & Hret & Hidx & Hw1 & Hw2).
  assert (sorted (superpos_set fo) = []) as Hnil.
  { apply nil_length_inv. rewrite length_sorted.
    unfold superpos_set. rewrite Hf. reflexivity. }
  eexists _, _, identity_idx. split; [apply Hret |]. simpl.
  split; [done |]. split; [| split].
  - destruct Hw2 as (Hlen & _). rewrite Hnil in Hlen. simpl in Hlen.
    by apply nil_length_inv.
  - by exists (String.length pname0).
  - intros i j x Hx Hne.
    destruct (decide (i = identity_idx)) as [|Hi]; [by left |].
    destruct (decide (j = identity_idx)) as [|Hj]; [by right |].
    destruct Hne. destruct Hw1 as (Hlen & Hrows & Hent).
    assert (i < length (sorted (tensor_set fo pname0)))%nat as Hilt.
    { unfold entry in Hx. destruct (w1 !! i) eqn:Hrow; [| done].
      apply lookup_lt_Some in Hrow. lia. }
    assert (j < length (sorted (tensor_set fo pname0)))%nat as Hjlt.
    { unfold entry in Hx. destruct (w1 !! i) as [row|] eqn:Hrow; [| done].
      simpl in Hx. apply lookup_lt_Some in Hx.
      rewrite Forall_forall in Hrows.
      rewrite <- (Hrows row); [done |]. apply list_elem_of_lookup. eauto. }
    rewrite (Hent i j Hilt Hjlt) in Hx. rewrite Hf in Hx.
    unfold one_vals in Hx. rewrite !decide_False in Hx by done.
    simpl in Hx. injection Hx as <-. reflexivity.
Qed.

Lemma one_body_only_witness :
  exists (out : Forged) (σ' : world) (identity_idx : nat),
    construct (World lone []) = (Ok out, σ') /\
    superpos_paulis out = [] /\
    w_ab out = [] /\
    (exists n, tensor_paulis out !! identity_idx = Some (str_mul "I" n)) /\
    forall i j x, entry (w_ij out) i j = Some x -> ~ x == 0 ->
                  i = identity_idx \/ j = identity_idx.
Proof.
  apply (one_body_only (World lone [])).
  - left. reflexivity.
  - exists "IIZI", (Complex (3 # 10) 0). split; [| reflexivity].
    simpl. left.
Defined.

(** * Order of the labels, and of the terms *)

Lemma same_mapping_keys (op1 op2 : OperatorBase) (p : string) :
  same_mapping op1 op2 -> p ∈ keys (paulis_of op1) -> p ∈ keys (paulis_of op2).
Proof.
  intros Hsame. rewrite <- !dict_get_is_Some. by rewrite (Hsame p).
Qed.

Lemma superpos_set_keys (fo : ForgedOperator) (p : string) :
  p ∈ superpos_set fo
  <-> exists op, op ∈ chol_list fo /\ p ∈ keys (paulis_of op).
Proof.
  rewrite elem_of_superpos_set. split.
  - intros (op & w & Hop & Hin & Hnz). exists op. split; [done |].
    apply keys_paulis_of. eauto.
  - intros (op & Hop & Hp). apply keys_paulis_of in Hp as (w & Hin & Hnz).
    eauto.
Qed.

Lemma same_terms_subset (fo1 fo2 : ForgedOperator) :
  same_terms fo1 fo2 ->
  keyset (one_body fo1) ⊆ keyset (one_body fo2) /\
  superpos_set fo1 ⊆ superpos_set fo2.
Proof.
  intros [H1 Hchol]. split.
  - intros p. unfold keyset, one_body. rewrite !elem_of_list_to_set.
    by apply same_mapping_keys.
  - intros p. rewrite !superpos_set_keys. intros (op & Hop & Hp).
    apply list_elem_of_lookup in Hop as [i Hi].
    destruct (Forall2_lookup_l _ _ _ i op Hchol Hi) as (op' & Hi' & Hsame).
    exists op'. split; [by apply list_elem_of_lookup_2 in Hi' |].
    by apply (same_mapping_keys op).
Qed.

Lemma same_terms_sym (fo1 fo2 : ForgedOperator) :
  same_terms fo1 fo2 -> same_terms fo2 fo1.
Proof.
  intros [H1 Hchol]. split.
  - intros p. by rewrite (H1 p).
  - apply Forall2_flip. induction Hchol as [|op1 op2 l1 l2 Hsame _ IH].
    + constructor.
    + constructor; [| done]. intros p. by rewrite (Hsame p).
Qed.

Lemma same_terms_sets (fo1 fo2 : ForgedOperator) :
  same_terms fo1 fo2 ->
  keyset (one_body fo1) = keyset (one_body fo2) /\
  superpos_set fo1 = superpos_set fo2.
Proof.
  intros Hsame.
  destruct (same_terms_subset fo1 fo2 Hsame) as [Ha Hb].
  destruct (same_terms_subset fo2 fo1 (same_terms_sym _ _ Hsame)) as [Ha' Hb'].
  split; apply set_eq; intros p; split; auto.
Qed.

(** The dictionary seen last is empty exactly when no label was collected. *)
Lemma last_dict_empty_iff (fo : ForgedOperator) :
  keys (last_dict fo) = []
  <-> keyset (one_body fo) ∪ superpos_set fo = ∅.
Proof.
  unfold last_dict. destruct (last (factors fo)) as [d|] eqn:Hl; simpl.
  - apply last_Some_elem_of in Hl as Hd.
    assert (keys d ≠ []) as Hne.
    { unfold factors in Hd. apply list_elem_of_filter in Hd as [Ht _].
      by apply truthy_keys. }
    split; [done |]. intros Hempty. destruct (keys d) as [|p l] eqn:Hk; [done |].
    assert (p ∈ superpos_set fo) as Hp.
    { apply (keys_factor_superpos fo d); [done |]. rewrite Hk. left. }
    assert (p ∈ keyset (one_body fo) ∪ superpos_set fo) as Hp'
      by (by apply elem_of_union_r).
    rewrite Hempty in Hp'. by apply not_elem_of_empty in Hp'.
  - apply last_None in Hl. unfold superpos_set. rewrite Hl. simpl.
    rewrite (right_id_L ∅ (∪)). unfold keyset. split.
    + by intros ->.
    + intros Hempty. destruct (keys (one_body fo)) as [|p l] eqn:Hk; [done |].
      assert (p ∈ (list_to_set (p :: l) : gset string)) as Hp
        by (apply elem_of_list_to_set; left).
      rewrite Hempty in Hp. by apply not_elem_of_empty in Hp.
Qed.

(** C9.  The two lists [construct] returns are strictly increasing in the
    order of strings, so without duplicates.  A second instance whose
    operators give the same weights to the same labels, whatever the order
    of their terms, gets the same two lists, when every label has [n]
    characters. *)
Theorem label_lists_sorted_and_determined
    (σ1 σ1' σ2 : world) (out1 : Forged) (n : nat) :
  construct σ1 = (Ok out1, σ1') ->
  same_terms (self σ1) (self σ2) ->
  uniform n (self σ1) -> uniform n (self σ2) ->
  (StronglySorted str_lt (tensor_paulis out1) /\ NoDup (tensor_paulis out1)) /\
  (StronglySorted str_lt (superpos_paulis out1) /\
   NoDup (superpos_paulis out1)) /\
  exists out2 σ2',
    construct σ2 = (Ok out2, σ2') /\
    tensor_paulis out2 = tensor_paulis out1 /\
    superpos_paulis out2 = superpos_paulis out1.
Proof.
  intros Hrun Hsame Hu1 Hu2.
  destruct (construct_inv _ _ _ Hrun) as (pname0 & rest & Hlast).
  destruct σ1 as [fo1 logs1], σ2 as [fo2 logs2]. simpl in *.
  destruct (construct_returns fo1 pname0 rest Hlast)
    as (identity_idx & w1 & w2 & Hret & _ & _ & _).
  rewrite Hret in Hrun. injection Hrun as <- _. simpl.
  split; [split; [apply sorted_lt | apply NoDup_sorted] |].
  split; [split; [apply sorted_lt | apply NoDup_sorted] |].
  destruct (same_terms_sets fo1 fo2 Hsame) as [Hone Hsup].
  destruct (keys (last_dict fo2)) as [|pname0' rest'] eqn:Hlast2.
  - apply last_dict_empty_iff in Hlast2. rewrite <- Hone, <- Hsup in Hlast2.
    apply last_dict_empty_iff in Hlast2. rewrite Hlast2 in Hlast. discriminate.
  - destruct (construct_returns fo2 pname0' rest' Hlast2)
      as (identity_idx' & w1' & w2' & Hret' & _ & _ & _).
    eexists _, _. split; [apply Hret' |]. simpl.
    unfold tensor_set. rewrite Hone, Hsup.
    rewrite (uniform_identity n fo1 pname0 rest Hu1 Hlast).
    rewrite (uniform_identity n fo2 pname0' rest' Hu2 Hlast2). done.
Qed.

Lemma uniform_toy : uniform 4 toy.
Proof.
  intros op p w Hop Hin. simpl in Hop. unfold chol_list in Hop. simpl in Hop.
  repeat (apply elem_of_cons in Hop as [-> | Hop]); simpl in Hin.
  - repeat (apply elem_of_cons in Hin as [[= -> ->] | Hin]); try done.
    by apply elem_of_nil in Hin.
  - repeat (apply elem_of_cons in Hin as [[= -> ->] | Hin]); try done.
    by apply elem_of_nil in Hin.
  - by apply elem_of_nil in Hop.
Qed.

Lemma uniform_toy_reordered : uniform 4 toy_reordered.
Proof.
  intros op p w Hop Hin. simpl in Hop. unfold chol_list in Hop. simpl in Hop.
  repeat (apply elem_of_cons in Hop as [-> | Hop]); simpl in Hin.
  - repeat (apply elem_of_cons in Hin as [[= -> ->] | Hin]); try done.
    by apply elem_of_nil in Hin.
  - repeat (apply elem_of_cons in Hin as [[= -> ->] | Hin]); try done.
    by apply elem_of_nil in Hin.
  - by apply elem_of_nil in Hop.
Qed.

Lemma same_terms_toy : same_terms toy toy_reordered.
Proof.
  split.
  - intros p.
    assert (paulis_of (h_1_op toy) = paulis_of (h_1_op toy_reordered)) as ->
      by (vm_compute; reflexivity).
    done.
  - unfold chol_list. cbn [h_chol_ops toy toy_reordered instance_of].
    constructor; [| constructor]. intros p.
    assert (paulis_of (op_of [("IIZI", Complex (1 # 2) 0);
                              ("IXXI", Complex (1 # 5) 0)])
            = [("IIZI", Complex (1 # 2) 0); ("IXXI", Complex (1 # 5) 0)]) as ->
      by (vm_compute; reflexivity).
    assert (paulis_of (op_of [("IXXI", Complex (1 # 5) 0);
                              ("IIZI", Complex (1 # 2) 0)])
            = [("IXXI", Complex (1 # 5) 0); ("IIZI", Complex (1 # 2) 0)]) as ->
      by (vm_compute; reflexivity).
    cbn [dict_get]. repeat case_decide; congruence.
Qed.

Lemma label_lists_sorted_and_determined_witness :
  (StronglySorted str_lt (tensor_paulis toy_forged) /\
   NoDup (tensor_paulis toy_forged)) /\
  (StronglySorted str_lt (superpos_paulis toy_forged) /\
   NoDup (superpos_paulis toy_forged)) /\
  exists out2 σ2',
    construct (World toy_reordered []) = (Ok out2, σ2') /\
    tensor_paulis out2 = tensor_paulis toy_forged /\
    superpos_paulis out2 = superpos_paulis toy_forged.
Proof.
  apply (label_lists_sorted_and_determined
           (World toy []) toy_logged (World toy_reordered []) toy_forged 4).
  - vm_compute. reflexivity.
  - exact same_terms_toy.
  - exact uniform_toy.
  - exact uniform_toy_reordered.
Defined.

(** * The values of the cells *)

Lemma fold_Qplus_from (l : list Q) (x : Q) :
  fold_left Qplus l x == x + fold_left Qplus l 0.
Proof.
  revert x. induction l as [|y l IH]; intros x; simpl.
  - ring.
  - rewrite (IH (x + y)), (IH (0 + y)). ring.
Qed.

Lemma fold_Qplus_app (l1 l2 : list Q) :
  fold_left Qplus (l1 ++ l2) 0
  == fold_left Qplus l1 0 + fold_left Qplus l2 0.
Proof. rewrite fold_left_app. apply fold_Qplus_from. Qed.

Lemma at_index_lookup (paulis : list string) (d : dict complex) (a : nat)
    (p : string) :
  paulis !! a = Some p -> at_index paulis d a = dict_get d p.
Proof. intros Ha. unfold at_index. by rewrite Ha. Qed.

Lemma two_vals_sum (paulis : list string) (d : dict complex) (a b : nat)
    (p q : string) :
  paulis !! a = Some p -> paulis !! b = Some q ->
  fold_left Qplus (two_vals paulis d a b) 0 == pair_weight d p q.
Proof.
  intros Ha Hb. unfold two_vals, pair_weight.
  rewrite (at_index_lookup _ _ _ _ Ha), (at_index_lookup _ _ _ _ Hb).
  destruct (dict_get d p), (dict_get d q); simpl; ring.
Qed.

Lemma chol_vals_sum (paulis : list string) (ds : list (dict complex))
    (a b : nat) (p q : string) :
  paulis !! a = Some p -> paulis !! b = Some q ->
  fold_left Qplus (flat_map (fun d => two_vals paulis d a b) ds) 0
  == chol_sum ds p q.
Proof.
  intros Ha Hb. induction ds as [|d ds IH]; simpl; [reflexivity |].
  rewrite fold_Qplus_app, IH. by rewrite (two_vals_sum _ _ _ _ p q).
Qed.

Lemma one_vals_sum (paulis : list string) (d0 : dict complex)
    (identity_idx a b : nat) (p q : string) :
  paulis !! a = Some p -> paulis !! b = Some q ->
  fold_left Qplus (one_vals paulis d0 identity_idx a b) 0
  == (if decide (b = identity_idx) then one_weight d0 p else 0)
     + (if decide (a = identity_idx) then one_weight d0 q else 0).
Proof.
  intros Ha Hb. unfold one_vals, one_weight. rewrite fold_Qplus_app.
  rewrite (at_index_lookup _ _ _ _ Ha), (at_index_lookup _ _ _ _ Hb).
  destruct (decide (b = identity_idx)), (decide (a = identity_idx)),
    (dict_get d0 p), (dict_get d0 q); simpl; ring.
Qed.

(** A dictionary without terms adds nothing. *)
Lemma chol_sum_filter (ds : list (dict complex)) (p q : string) :
  chol_sum (filter (fun d => truthy d = true) ds) p q == chol_sum ds p q.
Proof.
  induction ds as [|d ds IH]; [reflexivity |].
  rewrite filter_cons. destruct (decide (truthy d = true)) as [Ht|Ht]; simpl.
  - by rewrite IH.
  - destruct d; [| done]. rewrite IH. unfold pair_weight. simpl. ring.
Qed.

(** The value of every cell of the two matrices. *)
Lemma construct_cells (σ σ' : world) (out : Forged) :
  construct σ = (Ok out, σ') ->
  exists (identity_idx n : nat),
    tensor_paulis out !! identity_idx = Some (str_mul "I" n) /\
    (forall i j p q,
       tensor_paulis out !! i = Some p -> tensor_paulis out !! j = Some q ->
       exists x, entry (w_ij out) i j = Some x /\
                 x == (if decide (j = identity_idx)
                       then one_weight (one_body (self σ)) p else 0)
                      + (if decide (i = identity_idx)
                         then one_weight (one_body (self σ)) q else 0)
                      + chol_sum (paulis_of <$> chol_list (self σ)) p q) /\
    (forall a b p q,
       superpos_paulis out !! a = Some p -> superpos_paulis out !! b = Some q ->
       exists x, entry (w_ab out) a b = Some x /\
                 x == chol_sum (paulis_of <$> chol_list (self σ)) p q) /\
    (forall p, p ∈ keys (one_body (self σ)) -> p ∈ tensor_paulis out).
Proof.
  intros Hrun. destruct (construct_inv _ _ _ Hrun) as (pname0 & rest & Hlast).
  destruct σ as [fo logs]. simpl in Hlast. simpl.
  destruct (construct_returns fo pname0 rest Hlast)
    as (identity_idx & w1 & w2 & Hret & Hidx & Hw1 & Hw2).
  rewrite Hret in Hrun. injection Hrun as <- _. simpl.
  exists identity_idx, (String.length pname0). split; [done |].
  split; [| split].
  3:{ intros p Hp. apply elem_of_sorted. unfold tensor_set, keyset.
      apply elem_of_union_l, elem_of_union_l. by apply elem_of_list_to_set. }
  - intros i j p q Hi Hj. destruct Hw1 as (_ & _ & Hent).
    eexists. split.
    + apply Hent; by eapply lookup_lt_Some.
    + rewrite fold_Qplus_app.
      rewrite (one_vals_sum _ _ _ _ _ p q) by done.
      rewrite (chol_vals_sum _ _ _ _ p q) by done.
      unfold factors. by rewrite chol_sum_filter.
  - intros a b p q Ha Hb. destruct Hw2 as (_ & _ & Hent).
    eexists. split.
    + apply Hent; by eapply lookup_lt_Some.
    + rewrite (chol_vals_sum _ _ _ _ p q) by done.
      unfold factors. by rewrite chol_sum_filter.
Qed.

(** C5.  When [construct] returns, each label [p] that the one-body
    dictionary gives a weight [w] has a position [i] in [tensor_paulis],
    and [Re(w)] is what the one-body loop leaves in the cells [(i, identity)]
    and [(identity, i)]: these cells hold [Re(w)] plus what the Cholesky
    loops add there.  When [p] is the identity label the two cells are one,
    and it holds [2 * Re(w)] plus what the Cholesky loops add. *)
Theorem one_body_contribution (σ σ' : world) (out : Forged) :
  construct σ = (Ok out, σ') ->
  exists (identity_idx n : nat),
    tensor_paulis out !! identity_idx = Some (str_mul "I" n) /\
    forall p w, dict_get (paulis_of (h_1_op (self σ))) p = Some w ->
      exists (i : nat) (x y : Q),
        tensor_paulis out !! i = Some p /\
        entry (w_ij out) i identity_idx = Some x /\
        entry (w_ij out) identity_idx i = Some y /\
        (i ≠ identity_idx ->
         x == real w + chol_sum (paulis_of <$> chol_list (self σ))
                                p (str_mul "I" n) /\
         y == real w + chol_sum (paulis_of <$> chol_list (self σ))
                                (str_mul "I" n) p) /\
        (i = identity_idx ->
         x == 2 * real w + chol_sum (paulis_of <$> chol_list (self σ))
                                    (str_mul "I" n) (str_mul "I" n)).
Proof.
  intros Hrun.
  destruct (construct_cells _ _ _ Hrun)
    as (identity_idx & n & Hidx & Hij & _ & Hin).
  exists identity_idx, n. split; [done |]. intros p w Hw.
  assert (p ∈ tensor_paulis out) as Hp.
  { apply Hin. apply dict_get_is_Some. unfold one_body. by rewrite Hw. }
  apply list_elem_of_lookup in Hp as [i Hi].
  destruct (Hij i identity_idx p _ Hi Hidx) as (x & Hx & Hxv).
  destruct (Hij identity_idx i _ p Hidx Hi) as (y & Hy & Hyv).
  exists i, x, y. split; [done |]. split; [done |]. split; [done |].
  assert (one_weight (one_body (self σ)) p = real w) as Hone.
  { unfold one_weight, one_body. by rewrite Hw. }
  rewrite decide_True in Hxv, Hyv by done. rewrite Hone in Hxv, Hyv.
  split.
  - intros Hne. rewrite decide_False in Hxv, Hyv by done.
    split; [rewrite Hxv | rewrite Hyv]; ring.
  - intros ->. rewrite decide_True in Hxv by done.
    assert (str_mul "I" n = p) as Hpe by congruence.
    rewrite Hpe in Hxv |- *. rewrite Hone in Hxv. rewrite Hxv. ring.
Qed.

Lemma one_body_contribution_witness :
  exists (identity_idx n : nat),
    tensor_paulis toy_forged !! identity_idx = Some (str_mul "I" n) /\
    forall p w, dict_get (paulis_of (h_1_op toy)) p = Some w ->
      exists (i : nat) (x y : Q),
        tensor_paulis toy_forged !! i = Some p /\
        entry (w_ij toy_forged) i identity_idx = Some x /\
        entry (w_ij toy_forged) identity_idx i = Some y /\
        (i ≠ identity_idx ->
         x == real w + chol_sum (paulis_of <$> chol_list toy)
                                p (str_mul "I" n) /\
         y == real w + chol_sum (paulis_of <$> chol_list toy)
                                (str_mul "I" n) p) /\
        (i = identity_idx ->
         x == 2 * real w + chol_sum (paulis_of <$> chol_list toy)
                                    (str_mul "I" n) (str_mul "I" n)).
Proof.
  apply (one_body_contribution (World toy []) toy_logged toy_forged).
  vm_compute. reflexivity.
Defined.

(** C6.  When [construct] returns, the cell of [w_ij] at the positions of
    two labels [p] and [q] of [tensor_paulis] holds the one-body values of
    that cell plus the sum, over the Cholesky operators, of [Re(w_1 * w_2)]
    for the weights [w_1] of [p] and [w_2] of [q] in that operator (nothing
    when it lacks one of the two); the cell of [w_ab] at the positions of
    [p] and [q] in [superpos_paulis] holds that same sum. *)
Theorem two_body_contribution (σ σ' : world) (out : Forged) :
  construct σ = (Ok out, σ') ->
  exists (identity_idx : nat),
    (forall i j p q,
       tensor_paulis out !! i = Some p -> tensor_paulis out !! j = Some q ->
       exists x, entry (w_ij out) i j = Some x /\
                 x == (if decide (j = identity_idx)
                       then one_weight (paulis_of (h_1_op (self σ))) p else 0)
                      + (if decide (i = identity_idx)
                         then one_weight (paulis_of (h_1_op (self σ))) q else 0)
                      + chol_sum (paulis_of <$> chol_list (self σ)) p q) /\
    (forall a b p q,
       superpos_paulis out !! a = Some p -> superpos_paulis out !! b = Some q ->
       exists x, entry (w_ab out) a b = Some x /\
                 x == chol_sum (paulis_of <$> chol_list (self σ)) p q).
Proof.
  intros Hrun.
  destruct (construct_cells _ _ _ Hrun)
    as (identity_idx & n & Hidx & Hij & Hab & _).
  exists identity_idx. split; done.
Qed.

Lemma two_body_contribution_witness :
  exists (identity_idx : nat),
    (forall i j p q,
       tensor_paulis toy_forged !! i = Some p ->
       tensor_paulis toy_forged !! j = Some q ->
       exists x, entry (w_ij toy_forged) i j = Some x /\
                 x == (if decide (j = identity_idx)
                       then one_weight (paulis_of (h_1_op toy)) p else 0)
                      + (if decide (i = identity_idx)
                         then one_weight (paulis_of (h_1_op toy)) q else 0)
                      + chol_sum (paulis_of <$> chol_list toy) p q) /\
    (forall a b p q,
       superpos_paulis toy_forged !! a = Some p ->
       superpos_paulis toy_forged !! b = Some q ->
       exists x, entry (w_ab toy_forged) a b = Some x /\
                 x == chol_sum (paulis_of <$> chol_list toy) p q).
Proof.
  apply (two_body_contribution (World toy []) toy_logged toy_forged).
  vm_compute. reflexivity.
Defined.

(** * When [construct] returns *)

Lemma has_term_last_dict (fo : ForgedOperator) :
  has_term fo <-> keys (last_dict fo) ≠ [].
Proof.
  split.
  - intros (op & p & w & Hop & Hin & Hnz) Hnil.
    apply last_dict_empty_iff in Hnil.
    assert (p ∈ keyset (one_body fo) ∪ superpos_set fo) as Hp.
    { apply elem_of_cons in Hop as [-> | Hop].
      - apply elem_of_union_l. unfold keyset, one_body.
        apply elem_of_list_to_set, keys_paulis_of. eauto.
      - apply elem_of_union_r, elem_of_superpos_set. eauto. }
    rewrite Hnil in Hp. by apply not_elem_of_empty in Hp.
  - intros Hne. destruct (keys (last_dict fo)) as [|pname0 rest] eqn:Hlast;
      [done |].
    destruct (dict_of_operator fo _ (last_dict_elem fo)) as (op & Hop & Hd).
    assert (pname0 ∈ keys (paulis_of op)) as Hp by (rewrite <- Hd, Hlast; left).
    apply keys_paulis_of in Hp as (w & Hin & Hnz).
    by exists op, pname0, w.
Qed.

(** [construct] returns exactly when some operator of the instance, the
    one-body operator or a Cholesky operator, has a term of nonzero
    weight. *)
Theorem construct_returns_iff_has_term (σ : world) :
  has_term (self σ) <-> exists out σ', construct σ = (Ok out, σ').
Proof.
  destruct σ as [fo logs]. simpl. rewrite has_term_last_dict. split.
  - intros Hne. destruct (keys (last_dict fo)) as [|pname0 rest] eqn:Hlast;
      [done |].
    destruct (construct_returns fo pname0 rest Hlast)
      as (identity_idx & w1 & w2 & Hret & _).
    eexists _, _. apply Hret.
  - intros (out & σ' & Hrun) Hnil.
    rewrite (construct_raises fo logs Hnil) in Hrun. discriminate.
Qed.

(** The only exception [construct] raises is the [IndexError] of
    [pnames[0]]: no lookup in an index table fails, and no cell is out of
    range.  It is raised before anything is logged, and only for an
    instance without any term of nonzero weight. *)
Theorem construct_raises_only_IndexError (σ σ' : world) (e : exn) :
  construct σ = (Raise e, σ') ->
  e = IndexError /\ σ' = σ /\ ~ has_term (self σ).
Proof.
  destruct σ as [fo logs]. simpl. intros Hrun.
  destruct (keys (last_dict fo)) as [|pname0 rest] eqn:Hlast.
  - rewrite (construct_raises fo logs Hlast) in Hrun.
    injection Hrun as <- <-. split; [done |]. split; [done |].
    rewrite has_term_last_dict, Hlast. intros Hne. by apply Hne.
  - destruct (construct_returns fo pname0 rest Hlast)
      as (identity_idx & w1 & w2 & Hret & _).
    rewrite Hret in Hrun. discriminate.
Qed.

Lemma construct_raises_only_IndexError_witness :
  IndexError = IndexError /\ World hollow [] = World hollow [] /\
  ~ has_term (self (World hollow [])).
Proof.
  apply (construct_raises_only_IndexError (World hollow []) (World hollow [])
           IndexError).
  vm_compute. reflexivity.
Defined.

(** The labels of [tensor_paulis] are the identity label the run computed
    and the labels that have a nonzero weight in the one-body operator or
    in a Cholesky operator, and no other. *)
Theorem tensor_paulis_exactly (σ σ' : world) (out : Forged) :
  construct σ = (Ok out, σ') ->
  exists n, forall p,
    p ∈ tensor_paulis out
    <-> p = str_mul "I" n \/
        exists op w, op ∈ h_1_op (self σ) :: chol_list (self σ) /\
                     (p, w) ∈ to_list (primitive op) /\ abs_gt_0 w = true.
Proof.
  intros Hrun. destruct (construct_inv _ _ _ Hrun) as (pname0 & rest & Hlast).
  destruct σ as [fo logs]. simpl in Hlast. simpl.
  destruct (construct_returns fo pname0 rest Hlast)
    as (identity_idx & w1 & w2 & Hret & _).
  rewrite Hret in Hrun. injection Hrun as <- _. simpl.
  exists (String.length pname0). intros p.
  rewrite elem_of_sorted. unfold tensor_set.
  rewrite !elem_of_union, elem_of_singleton, elem_of_superpos_set.
  unfold keyset, one_body. rewrite elem_of_list_to_set, keys_paulis_of.
  unfold identity_of. split.
  - intros [[(w & Hin & Hnz) | (op & w & Hop & Hin & Hnz)] | ->].
    + right. exists (h_1_op fo), w. split; [left | done].
    + right. exists op, w. split; [by right | done].
    + by left.
  - intros [-> | (op & w & Hop & Hin & Hnz)]; [by right |].
    left. apply elem_of_cons in Hop as [-> | Hop]; [left | right]; eauto.
Qed.

Lemma tensor_paulis_exactly_witness :
  exists n, forall p,
    p ∈ tensor_paulis toy_forged
    <-> p = str_mul "I" n \/
        exists op w, op ∈ h_1_op toy :: chol_list toy /\
                     (p, w) ∈ to_list (primitive op) /\ abs_gt_0 w = true.
Proof.
  apply (tensor_paulis_exactly (World toy []) toy_logged toy_forged).
  vm_compute. reflexivity.
Defined.

(** * A label named by several terms *)

Lemma dict_of_items_snoc {V : Type} (items : list (string * V))
    (kv : string * V) :
  dict_of_items (items ++ [kv]) = dict_set kv.1 kv.2 (dict_of_items items).
Proof. unfold dict_of_items. by rewrite fold_left_app. Qed.

Lemma paulis_of_last (op : OperatorBase) (p : string) :
  dict_get (paulis_of op) p = last (weights_of op p).
Proof.
  unfold paulis_of, weights_of.
  induction (to_list (primitive op)) as [|[l w] items IH] using rev_ind;
    [done |].
  rewrite filter_app, omap_app, filter_cons, filter_nil.
  change (omap ?f [(l, w)])
    with (match (if decide (l = p)
                 then if abs_gt_0 w then Some w else None
                 else None) with
          | Some y => [y]
          | None => []
          end).
  cbn [fst snd]. destruct (abs_gt_0 w) eqn:Hnz.
  - rewrite decide_True by done.
    rewrite dict_of_items_snoc, dict_get_set. cbn [fst snd].
    destruct (decide (l = p)) as [->|Hne].
    + by rewrite last_snoc.
    + by rewrite app_nil_r.
  - rewrite decide_False by done. rewrite !app_nil_r.
    by destruct (decide (l = p)); rewrite ?app_nil_r.
Qed.

(** The dictionary of an operator gives a label the weight of the last of
    its terms of nonzero weight with that label: the weights of terms with
    the same label are not added, and a term of weight zero erases
    nothing. *)
Theorem paulis_of_last_weight (op : OperatorBase) (p : string) :
  dict_get (paulis_of op) p = last (weights_of op p).
Proof. apply paulis_of_last. Qed.

(** A weight of the dictionary is the weight of a term, and is not zero. *)
Lemma paulis_of_weight_term (op : OperatorBase) (p : string) (w : complex) :
  dict_get (paulis_of op) p = Some w ->
  (p, w) ∈ to_list (primitive op) /\ abs_gt_0 w = true.
Proof.
  rewrite paulis_of_last. intros Hl. apply last_Some_elem_of in Hl.
  unfold weights_of in Hl. apply list_elem_of_omap in Hl as ([l w'] & Hin & Hf).
  cbn [fst snd] in Hf. destruct (decide (l = p)) as [->|]; [| done].
  destruct (abs_gt_0 w') eqn:Hnz; [| done]. by injection Hf as ->.
Qed.

(** * What the result depends on *)

(** A matrix is determined by its dimensions and the histories it holds. *)
Lemma holds_unique (n m : nat) (w w' : matrix) (h : history) :
  holds n m w h -> holds n m w' h -> w = w'.
Proof.
  intros (Hlen & Hrows & Hent) (Hlen' & Hrows' & Hent').
  rewrite Forall_forall in Hrows, Hrows'.
  apply list_eq. intros i.
  destruct (decide (i < n)%nat) as [Hi|Hi].
  - destruct (lookup_lt_is_Some_2 w i) as [row Hrow]; [lia |].
    destruct (lookup_lt_is_Some_2 w' i) as [row' Hrow']; [lia |].
    rewrite Hrow, Hrow'. f_equal.
    assert (length row = m) as Hl
      by (apply Hrows, list_elem_of_lookup; eauto).
    assert (length row' = m) as Hl'
      by (apply Hrows', list_elem_of_lookup; eauto).
    apply list_eq. intros j.
    destruct (decide (j < m)%nat) as [Hj|Hj].
    + specialize (Hent i j Hi Hj). specialize (Hent' i j Hi Hj).
      unfold entry in Hent, Hent'. rewrite Hrow in Hent. rewrite Hrow' in Hent'.
      simpl in Hent, Hent'. by rewrite Hent, Hent'.
    + rewrite !lookup_ge_None_2 by lia. done.
  - rewrite !lookup_ge_None_2 by lia. done.
Qed.

Lemma same_dict_keys (d1 d2 : dict complex) (p : string) :
  same_dict d1 d2 -> p ∈ keys d1 <-> p ∈ keys d2.
Proof. intros Hsame. by rewrite <- !dict_get_is_Some, (Hsame p). Qed.

Lemma same_dict_keyset (d1 d2 : dict complex) :
  same_dict d1 d2 -> keyset d1 = keyset d2.
Proof.
  intros Hsame. apply set_eq. intros p. unfold keyset.
  rewrite !elem_of_list_to_set. by apply same_dict_keys.
Qed.

Lemma same_dict_truthy (d1 d2 : dict complex) :
  same_dict d1 d2 -> truthy d1 = truthy d2.
Proof.
  intros Hsame. destruct d1 as [|[k v] d1], d2 as [|[k' v'] d2]; try done.
  - specialize (Hsame k'). simpl in Hsame. by rewrite decide_True in Hsame.
  - specialize (Hsame k). simpl in Hsame. by rewrite decide_True in Hsame.
Qed.

Lemma same_dict_at_index (paulis : list string) (d1 d2 : dict complex)
    (a : nat) :
  same_dict d1 d2 -> at_index paulis d1 a = at_index paulis d2 a.
Proof.
  intros Hsame. unfold at_index. destruct (paulis !! a); simpl; [| done].
  apply Hsame.
Qed.

Lemma same_dicts_keysets (ds1 ds2 : list (dict complex)) :
  Forall2 same_dict ds1 ds2 -> keyset <$> ds1 = keyset <$> ds2.
Proof.
  induction 1 as [|d1 d2 l1 l2 Hd _ IH]; [done |].
  rewrite !fmap_cons. by rewrite (same_dict_keyset d1 d2), IH.
Qed.

Lemma same_dicts_superpos_set (fo1 fo2 : ForgedOperator) :
  Forall2 same_dict (factors fo1) (factors fo2) ->
  superpos_set fo1 = superpos_set fo2.
Proof.
  intros Hfac. unfold superpos_set. by rewrite (same_dicts_keysets _ _ Hfac).
Qed.

Lemma same_dicts_two_vals (paulis : list string)
    (ds1 ds2 : list (dict complex)) (a b : nat) :
  Forall2 same_dict ds1 ds2 ->
  flat_map (fun d => two_vals paulis d a b) ds1
  = flat_map (fun d => two_vals paulis d a b) ds2.
Proof.
  induction 1 as [|d1 d2 l1 l2 Hd _ IH]; [done |]. simpl. rewrite IH.
  f_equal. unfold two_vals.
  by rewrite !(same_dict_at_index paulis d1 d2).
Qed.

(** The result of [construct], and what it logs, depend on the instance
    through the dictionaries of its operators only, and on these through
    the weights they give and the length of the label seen last. *)
Lemma construct_same_dicts (fo1 fo2 : ForgedOperator)
    (logs1 logs2 : list LogRecord) :
  same_dict (one_body fo1) (one_body fo2) ->
  Forall2 same_dict (factors fo1) (factors fo2) ->
  (forall p1 r1 p2 r2,
     keys (last_dict fo1) = p1 :: r1 -> keys (last_dict fo2) = p2 :: r2 ->
     String.length p1 = String.length p2) ->
  exists r recs,
    construct (World fo1 logs1) = (r, World fo1 (logs1 ++ recs)) /\
    construct (World fo2 logs2) = (r, World fo2 (logs2 ++ recs)).
Proof.
  intros Hone Hfac Hlen.
  pose proof (same_dict_keyset _ _ Hone) as Hk.
  pose proof (same_dicts_superpos_set _ _ Hfac) as Hs.
  destruct (keys (last_dict fo1)) as [|p1 r1] eqn:Hl1.
  { assert (keys (last_dict fo2) = []) as Hl2.
    { apply last_dict_empty_iff. rewrite <- Hk, <- Hs.
      by apply last_dict_empty_iff. }
    exists (Raise IndexError), []. rewrite !app_nil_r.
    split; by apply construct_raises. }
  destruct (keys (last_dict fo2)) as [|p2 r2] eqn:Hl2.
  { apply last_dict_empty_iff in Hl2. rewrite <- Hk, <- Hs in Hl2.
    apply last_dict_empty_iff in Hl2. rewrite Hl2 in Hl1. discriminate. }
  destruct (construct_returns fo1 p1 r1 Hl1)
    as (idx1 & w1 & w2 & Hret1 & Hidx1 & Hw1 & Hw2).
  destruct (construct_returns fo2 p2 r2 Hl2)
    as (idx2 & w1' & w2' & Hret2 & Hidx2 & Hw1' & Hw2').
  assert (identity_of p1 = identity_of p2) as Hid.
  { unfold identity_of. by rewrite (Hlen p1 r1 p2 r2). }
  assert (tensor_set fo1 p1 = tensor_set fo2 p2) as HT.
  { unfold tensor_set. by rewrite Hk, Hs, Hid. }
  rewrite <- HT in Hw1', Hidx2. rewrite <- Hs in Hw2'.
  assert (idx2 = idx1) as ->.
  { apply (NoDup_lookup (sorted (tensor_set fo1 p1)) _ _ (identity_of p1)).
    - apply NoDup_sorted.
    - by rewrite Hid.
    - done. }
  assert (w1' = w1) as ->.
  { apply (holds_unique _ _ _ _ _ Hw1'). revert Hw1. apply holds_ext.
    intros a b. rewrite (same_dicts_two_vals _ _ _ a b Hfac). f_equal.
    unfold one_vals. by rewrite !(same_dict_at_index _ _ _ _ Hone). }
  assert (w2' = w2) as ->.
  { apply (holds_unique _ _ _ _ _ Hw2'). revert Hw2. apply holds_ext.
    intros a b. by rewrite (same_dicts_two_vals _ _ _ a b Hfac). }
  eexists _, (log_records fo1 p1). split; [apply Hret1 |].
  rewrite Hret2. unfold log_records. by rewrite <- HT, <- Hs.
Qed.

Lemma same_terms_factors (fo1 fo2 : ForgedOperator) :
  same_terms fo1 fo2 -> Forall2 same_dict (factors fo1) (factors fo2).
Proof.
  intros [_ Hchol]. unfold factors.
  induction Hchol as [|op1 op2 l1 l2 Hsame _ IH]; [constructor |].
  rewrite !fmap_cons, !filter_cons.
  rewrite (same_dict_truthy (paulis_of op1) (paulis_of op2) Hsame).
  destruct (decide (truthy (paulis_of op2) = true)); [| done].
  by constructor.
Qed.

Lemma uniform_first_key (n : nat) (fo : ForgedOperator) (p : string)
    (r : list string) :
  uniform n fo -> keys (last_dict fo) = p :: r -> String.length p = n.
Proof.
  intros Huni Hlast.
  destruct (dict_of_operator fo _ (last_dict_elem fo)) as (op & Hop & Hd).
  assert (p ∈ keys (paulis_of op)) as Hp by (rewrite <- Hd, Hlast; left).
  apply keys_paulis_of in Hp as (w & Hin & _). by apply (Huni op p w).
Qed.

(** The whole result, labels and matrices, is the same for a second
    instance whose operators give the same weights to the same labels,
    whatever the order of their terms and whatever terms of weight zero
    they hold, when every label has [n] characters: in each cell the same
    values are added in the same order. *)
Theorem reordered_terms_same_result (σ1 σ1' σ2 : world) (out : Forged)
    (n : nat) :
  construct σ1 = (Ok out, σ1') ->
  same_terms (self σ1) (self σ2) ->
  uniform n (self σ1) -> uniform n (self σ2) ->
  exists σ2', construct σ2 = (Ok out, σ2').
Proof.
  destruct σ1 as [fo1 logs1], σ2 as [fo2 logs2]. simpl.
  intros Hrun Hsame Hu1 Hu2.
  destruct (construct_same_dicts fo1 fo2 logs1 logs2)
    as (r & recs & Hr1 & Hr2).
  - apply Hsame.
  - by apply same_terms_factors.
  - intros p1 r1 p2 r2 Hl1 Hl2.
    by rewrite (uniform_first_key n fo1 p1 r1), (uniform_first_key n fo2 p2 r2).
  - rewrite Hr1 in Hrun. injection Hrun as -> _. eauto.
Qed.

Lemma reordered_terms_same_result_witness :
  exists σ2', construct (World toy_reordered []) = (Ok toy_forged, σ2').
Proof.
  apply (reordered_terms_same_result
           (World toy []) toy_logged (World toy_reordered []) toy_forged 4).
  - vm_compute. reflexivity.
  - exact same_terms_toy.
  - exact uniform_toy.
  - exact uniform_toy_reordered.
Defined.

Lemma factors_prune (fo : ForgedOperator) : factors (prune fo) = factors fo.
Proof.
  unfold factors, prune, chol_list at 1. cbn [h_chol_ops].
  induction (chol_list fo) as [|op l IH]; [done |].
  rewrite fmap_cons, !filter_cons.
  destruct (decide (truthy (paulis_of op) = true)) as [Ht|Ht].
  - rewrite fmap_cons, filter_cons, decide_True by done. by rewrite IH.
  - done.
Qed.

Lemma Forall2_same_dict_refl (ds : list (dict complex)) :
  Forall2 same_dict ds ds.
Proof. induction ds; constructor; done. Qed.

(** A Cholesky operator without any term of nonzero weight is skipped:
    taking these operators out of the instance changes neither the result
    of [construct] nor what it logs. *)
Theorem empty_factors_skipped (fo : ForgedOperator) (logs : list LogRecord) :
  exists r recs,
    construct (World fo logs) = (r, World fo (logs ++ recs)) /\
    construct (World (prune fo) logs) = (r, World (prune fo) (logs ++ recs)).
Proof.
  apply construct_same_dicts.
  - done.
  - rewrite factors_prune. apply Forall2_same_dict_refl.
  - intros p1 r1 p2 r2 Hl1 Hl2. unfold last_dict in Hl2.
    rewrite factors_prune in Hl2. fold (last_dict fo) in Hl2.
    change (one_body (prune fo)) with (one_body fo) in Hl2.
    fold (last_dict fo) in Hl2. congruence.
Qed.

(** * Reading a cell *)

Lemma holds_entry (n m : nat) (w : matrix) (h : history) (i j : nat) (x : Q) :
  holds n m w h -> entry w i j = Some x ->
  (i < n)%nat /\ (j < m)%nat /\ x = fold_left Qplus (h i j) 0.
Proof.
  intros (Hlen & Hrows & Hent) Hx.
  assert (i < n)%nat as Hi.
  { unfold entry in Hx. destruct (w !! i) eqn:Hrow; [| done].
    apply lookup_lt_Some in Hrow. lia. }
  assert (j < m)%nat as Hj.
  { unfold entry in Hx. destruct (w !! i) as [row|] eqn:Hrow; [| done].
    simpl in Hx. apply lookup_lt_Some in Hx.
    rewrite Forall_forall in Hrows.
    rewrite <- (Hrows row); [done |]. apply list_elem_of_lookup. eauto. }
  split; [done |]. split; [done |].
  rewrite (Hent i j Hi Hj) in Hx. by injection Hx as <-.
Qed.

(** * The two matrices, cell against cell *)

(** Away from the row and the column of the identity label, [w_ab] is the
    part of [w_ij] on the labels of [superpos_paulis]: the cells of two
    such labels hold the same value in both matrices. *)
Theorem w_ab_inside_w_ij (σ σ' : world) (out : Forged) :
  construct σ = (Ok out, σ') ->
  exists identity_idx n,
    tensor_paulis out !! identity_idx = Some (str_mul "I" n) /\
    forall a b i j p q,
      superpos_paulis out !! a = Some p -> superpos_paulis out !! b = Some q ->
      tensor_paulis out !! i = Some p -> tensor_paulis out !! j = Some q ->
      i ≠ identity_idx -> j ≠ identity_idx ->
      is_Some (entry (w_ab out) a b) /\
      entry (w_ij out) i j = entry (w_ab out) a b.
Proof.
  intros Hrun. destruct (construct_inv _ _ _ Hrun) as (pname0 & rest & Hlast).
  destruct σ as [fo logs]. simpl in Hlast.
  destruct (construct_returns fo pname0 rest Hlast)
    as (identity_idx & w1 & w2 & Hret & Hidx & Hw1 & Hw2).
  rewrite Hret in Hrun. injection Hrun as <- _. simpl.
  exists identity_idx, (String.length pname0). split; [done |].
  intros a b i j p q Ha Hb Hi Hj Hni Hnj.
  destruct Hw1 as (_ & _ & Hent1). destruct Hw2 as (_ & _ & Hent2).
  rewrite Hent1 by (by eapply lookup_lt_Some).
  rewrite Hent2 by (by eapply lookup_lt_Some).
  split; [eauto |]. do 2 f_equal.
  unfold one_vals. rewrite !decide_False by done. simpl.
  apply flat_map_ext. intros d. unfold two_vals.
  by rewrite (at_index_lookup _ d i p), (at_index_lookup _ d j q),
             (at_index_lookup _ d a p), (at_index_lookup _ d b q).
Qed.

Lemma w_ab_inside_w_ij_witness :
  exists identity_idx n,
    tensor_paulis toy_forged !! identity_idx = Some (str_mul "I" n) /\
    forall a b i j p q,
      superpos_paulis toy_forged !! a = Some p ->
      superpos_paulis toy_forged !! b = Some q ->
      tensor_paulis toy_forged !! i = Some p ->
      tensor_paulis toy_forged !! j = Some q ->
      i ≠ identity_idx -> j ≠ identity_idx ->
      is_Some (entry (w_ab toy_forged) a b) /\
      entry (w_ij toy_forged) i j = entry (w_ab toy_forged) a b.
Proof.
  apply (w_ab_inside_w_ij (World toy []) toy_logged toy_forged).
  vm_compute. reflexivity.
Defined.

Lemma flat_map_all_nil {A B : Type} (f : A -> list B) (l : list A) :
  (forall x, x ∈ l -> f x = []) -> flat_map f l = [].
Proof.
  induction l as [|x l IH]; intros Hnil; simpl; [done |].
  rewrite (Hnil x) by left. apply IH. intros y Hy. apply Hnil. by right.
Qed.

(** Two labels that no Cholesky operator holds together, both with a
    nonzero weight, have a cell equal to zero in [w_ab], and in [w_ij] when
    neither is the identity label: nothing is ever added there. *)
Theorem apart_labels_zero_cell (σ σ' : world) (out : Forged) (p q : string) :
  construct σ = (Ok out, σ') ->
  (forall op, op ∈ chol_list (self σ) ->
              ~ (p ∈ keys (paulis_of op) /\ q ∈ keys (paulis_of op))) ->
  (forall a b, superpos_paulis out !! a = Some p ->
               superpos_paulis out !! b = Some q ->
               entry (w_ab out) a b = Some 0) /\
  exists identity_idx n,
    tensor_paulis out !! identity_idx = Some (str_mul "I" n) /\
    forall i j, tensor_paulis out !! i = Some p ->
                tensor_paulis out !! j = Some q ->
                i ≠ identity_idx -> j ≠ identity_idx ->
                entry (w_ij out) i j = Some 0.
Proof.
  intros Hrun Hapart.
  destruct (construct_inv _ _ _ Hrun) as (pname0 & rest & Hlast).
  destruct σ as [fo logs]. simpl in Hlast, Hapart.
  destruct (construct_returns fo pname0 rest Hlast)
    as (identity_idx & w1 & w2 & Hret & Hidx & Hw1 & Hw2).
  rewrite Hret in Hrun. injection Hrun as <- _. simpl.
  assert (forall paulis a b,
            paulis !! a = Some p -> paulis !! b = Some q ->
            flat_map (fun d => two_vals paulis d a b) (factors fo) = [])
    as Hnone.
  { intros paulis a b Ha Hb.
    apply flat_map_all_nil. intros d Hd. unfold two_vals.
    rewrite (at_index_lookup _ d a p), (at_index_lookup _ d b q) by done.
    unfold factors in Hd.
    apply list_elem_of_filter in Hd as [_ Hd].
    apply list_elem_of_fmap in Hd as (op & -> & Hop).
    destruct (dict_get (paulis_of op) p) as [w_1|] eqn:Hp; [| done].
    destruct (dict_get (paulis_of op) q) as [w_2|] eqn:Hq; [| done].
    destruct (Hapart op Hop). split; apply dict_get_is_Some; eauto. }
  split.
  - intros a b Ha Hb. destruct Hw2 as (_ & _ & Hent).
    rewrite Hent by (by eapply lookup_lt_Some).
    by rewrite (Hnone _ a b).
  - exists identity_idx, (String.length pname0). split; [done |].
    intros i j Hi Hj Hni Hnj. destruct Hw1 as (_ & _ & Hent).
    rewrite Hent by (by eapply lookup_lt_Some).
    rewrite (Hnone _ i j) by done.
    unfold one_vals. by rewrite !decide_False by done.
Qed.

Lemma apart_labels_zero_cell_witness :
  exists out σ',
    construct (World toy_two []) = (Ok out, σ') /\
    (forall a b, superpos_paulis out !! a = Some "IXXI" ->
                 superpos_paulis out !! b = Some "ZIII" ->
                 entry (w_ab out) a b = Some 0) /\
    exists identity_idx n,
      tensor_paulis out !! identity_idx = Some (str_mul "I" n) /\
      forall i j, tensor_paulis out !! i = Some "IXXI" ->
                  tensor_paulis out !! j = Some "ZIII" ->
                  i ≠ identity_idx -> j ≠ identity_idx ->
                  entry (w_ij out) i j = Some 0.
Proof.
  eexists _, _. split; [vm_compute; reflexivity |].
  eapply (apart_labels_zero_cell (World toy_two [])).
  - vm_compute. reflexivity.
  - intros op Hop [Hp Hq]. simpl in Hop. unfold chol_list in Hop.
    simpl in Hop.
    assert (keys (paulis_of first_chol) = ["IIZI"; "IXXI"]) as E1
      by (vm_compute; reflexivity).
    assert (keys (paulis_of second_chol) = ["IIZI"; "ZIII"]) as E2
      by (vm_compute; reflexivity).
    apply elem_of_cons in Hop as [-> | Hop].
    + fold first_chol in Hq. rewrite E1 in Hq.
      repeat (apply elem_of_cons in Hq as [Hq | Hq]; [discriminate |]).
      by apply elem_of_nil in Hq.
    + apply list_elem_of_singleton in Hop as ->.
      fold second_chol in Hp. rewrite E2 in Hp.
      repeat (apply elem_of_cons in Hp as [Hp | Hp]; [discriminate |]).
      by apply elem_of_nil in Hp.
Defined.

(** * The index tables *)

(** The table built from a list of labels without duplicates sends a label
    to its position and a position back to its label; looking up a label
    that is not in the list raises [KeyError]. *)
Theorem index_table_round_trip (paulis : list string) (p : string) :
  NoDup paulis ->
  (forall i, dict_getitem (pauli_ordering paulis) p = Ok i
             <-> paulis !! i = Some p) /\
  (p ∉ paulis <-> dict_getitem (pauli_ordering paulis) p = Raise KeyError).
Proof.
  intros Hnd. split.
  - intros i. rewrite <- (pauli_ordering_spec paulis p i Hnd).
    unfold dict_getitem. destruct (dict_get (pauli_ordering paulis) p).
    + split; [by intros [= ->] | by intros [= ->]].
    + split; discriminate.
  - unfold dict_getitem.
    destruct (dict_get (pauli_ordering paulis) p) as [i|] eqn:Hg.
    + apply pauli_ordering_spec in Hg; [| done].
      split; [| discriminate]. intros Hnot. destruct Hnot.
      apply list_elem_of_lookup. eauto.
    + split; [done |]. intros _ Hin.
      apply list_elem_of_lookup in Hin as [i Hi].
      apply pauli_ordering_spec in Hi; [| done]. congruence.
Qed.

Lemma index_table_round_trip_witness :
  (forall i, dict_getitem (pauli_ordering ["IIII"; "IIZI"; "IXXI"]) "IIZI" = Ok i
             <-> ["IIII"; "IIZI"; "IXXI"] !! i = Some "IIZI") /\
  ("IIZI" ∉ ["IIII"; "IIZI"; "IXXI"]
   <-> dict_getitem (pauli_ordering ["IIII"; "IIZI"; "IXXI"]) "IIZI"
       = Raise KeyError).
Proof.
  apply (index_table_round_trip ["IIII"; "IIZI"; "IXXI"] "IIZI").
  compute_done.
Defined.

(** * Real weights *)

Lemma Qsquare_nonneg (x : Q) : 0 <= x * x.
Proof. destruct x as [n d]. unfold Qle, Qmult. simpl. nia. Qed.

Lemma pair_weight_diag_nonneg (op : OperatorBase) (p : string) :
  (forall w, (p, w) ∈ to_list (primitive op) -> imag w == 0) ->
  0 <= pair_weight (paulis_of op) p p.
Proof.
  intros Hreal. unfold pair_weight.
  destruct (dict_get (paulis_of op) p) as [w|] eqn:Hw; [| apply Qle_refl].
  apply paulis_of_weight_term in Hw as [Hin _].
  unfold cmul. cbn [real imag]. rewrite (Hreal w Hin).
  assert (real w * real w - 0 * 0 == real w * real w) as -> by ring.
  apply Qsquare_nonneg.
Qed.

(** When every weight is a real number, the diagonal of [w_ab] is not
    negative: the cell of a label with itself is a sum of squares. *)
Theorem real_weights_diagonal_nonneg (σ σ' : world) (out : Forged) :
  construct σ = (Ok out, σ') ->
  real_weights (self σ) ->
  forall a x, entry (w_ab out) a a = Some x -> 0 <= x.
Proof.
  intros Hrun Hreal a x Hx.
  destruct (construct_inv _ _ _ Hrun) as (pname0 & rest & Hlast).
  destruct σ as [fo logs]. simpl in Hlast, Hreal.
  destruct (construct_returns fo pname0 rest Hlast)
    as (identity_idx & w1 & w2 & Hret & Hidx & Hw1 & Hw2).
  rewrite Hret in Hrun. injection Hrun as <- _. simpl in Hx.
  destruct (holds_entry _ _ _ _ _ _ _ Hw2 Hx) as (Ha & _ & ->).
  destruct (lookup_lt_is_Some_2 _ _ Ha) as [p Hp].
  rewrite (chol_vals_sum _ _ _ _ p p Hp Hp).
  assert (forall d, d ∈ factors fo -> 0 <= pair_weight d p p) as Hpos.
  { intros d Hd. unfold factors in Hd.
    apply list_elem_of_filter in Hd as [_ Hd].
    apply list_elem_of_fmap in Hd as (op & -> & Hop).
    apply pair_weight_diag_nonneg. intros w Hin.
    apply (Hreal op p w); [by right | done]. }
  revert Hpos. generalize (factors fo). clear.
  intros ds. induction ds as [|d ds IH]; intros Hpos; simpl;
    [apply Qle_refl |].
  apply (Qplus_le_compat 0 _ 0 _).
  - apply Hpos. left.
  - apply IH. intros d' Hd'. apply Hpos. by right.
Qed.

Lemma real_weights_toy : real_weights toy.
Proof.
  intros op p w Hop Hin. simpl in Hop. unfold chol_list in Hop. simpl in Hop.
  repeat (apply elem_of_cons in Hop as [-> | Hop]); simpl in Hin;
    try (by apply elem_of_nil in Hop);
    repeat (apply elem_of_cons in Hin as [[= -> ->] | Hin]); try done;
    by apply elem_of_nil in Hin.
Qed.

Lemma real_weights_diagonal_nonneg_witness :
  real_weights toy /\
  (forall a x, entry (w_ab toy_forged) a a = Some x -> 0 <= x).
Proof.
  split; [exact real_weights_toy |].
  apply (real_weights_diagonal_nonneg (World toy []) toy_logged toy_forged).
  - vm_compute. reflexivity.
  - exact real_weights_toy.
Defined.

(** * Where the identity label comes from *)

Lemma keys_dict_set_head {V : Type} (k : string) (v : V) (d : dict V)
    (k0 : string) (ks0 : list string) :
  keys d = k0 :: ks0 -> exists ks, keys (dict_set k v d) = k0 :: ks.
Proof.
  destruct d as [|[k1 v1] d]; [done |]. unfold keys. simpl.
  intros [= -> _]. destruct (decide (k0 = k)); simpl; eauto.
Qed.

Lemma keys_fold_dict_set_head {V : Type} (items : list (string * V))
    (d : dict V) (k0 : string) (ks0 : list string) :
  keys d = k0 :: ks0 ->
  exists ks, keys (fold_left (fun d kv => dict_set kv.1 kv.2 d) items d)
             = k0 :: ks.
Proof.
  revert d ks0. induction items as [|[k v] items IH]; intros d ks0 Hd; simpl.
  - eauto.
  - destruct (keys_dict_set_head k v d k0 ks0 Hd) as [ks Hks].
    by apply (IH _ ks).
Qed.

(** The first label of the dictionary of an operator is the label of its
    first term of nonzero weight. *)
Lemma first_key_first_term (op : OperatorBase) (p : string)
    (ks : list string) :
  keys (paulis_of op) = p :: ks ->
  exists w rest, nonzero_terms op = (p, w) :: rest.
Proof.
  unfold paulis_of. fold (nonzero_terms op).
  destruct (nonzero_terms op) as [|[p0 w0] rest]; [done |].
  unfold dict_of_items. simpl.
  destruct (keys_fold_dict_set_head rest [(p0, w0)] p0 [] eq_refl) as [ks' ->].
  intros [= -> _]. eauto.
Qed.

Lemma factors_kept (fo : ForgedOperator) :
  factors fo
  = paulis_of <$> filter (fun op => truthy (paulis_of op) = true) (chol_list fo).
Proof.
  unfold factors. induction (chol_list fo) as [|op l IH]; [done |].
  rewrite fmap_cons, !filter_cons.
  destruct (decide (truthy (paulis_of op) = true)); [| done].
  by rewrite fmap_cons, IH.
Qed.

Lemma last_dict_kept (fo : ForgedOperator) :
  exists op, last (kept_ops fo) = Some op /\ last_dict fo = paulis_of op.
Proof.
  unfold kept_ops, last_dict. rewrite last_cons, factors_kept, fmap_last.
  destruct (last (filter _ (chol_list fo))) as [op|]; simpl; eauto.
Qed.

Lemma length_str_mul_I (n : nat) : String.length (str_mul "I" n) = n.
Proof.
  induction n as [|n IH]; [done |].
  change (S (String.length (str_mul "I" n)) = S n). by rewrite IH.
Qed.

(** The identity label [construct] adds to [tensor_paulis] has the length
    of one label only: the label of the first term of nonzero weight of the
    last operator the collecting loop goes through, which is the last
    Cholesky operator that has such a term, or the one-body operator when
    none has.  The labels of the other operators are not looked at. *)
Theorem identity_label_source (σ σ' : world) (out : Forged) :
  construct σ = (Ok out, σ') ->
  exists op p0 w0 rest identity_idx,
    last (kept_ops (self σ)) = Some op /\
    nonzero_terms op = (p0, w0) :: rest /\
    tensor_paulis out !! identity_idx = Some (str_mul "I" (String.length p0)) /\
    String.length (str_mul "I" (String.length p0)) = String.length p0.
Proof.
  intros Hrun. destruct (construct_inv _ _ _ Hrun) as (pname0 & rest & Hlast).
  destruct σ as [fo logs]. simpl in Hlast. simpl.
  destruct (construct_returns fo pname0 rest Hlast)
    as (identity_idx & w1 & w2 & Hret & Hidx & _).
  rewrite Hret in Hrun. injection Hrun as <- _. simpl.
  destruct (last_dict_kept fo) as (op & Hop & Hd). rewrite Hd in Hlast.
  destruct (first_key_first_term op pname0 rest Hlast) as (w0 & rest' & Hnz).
  exists op, pname0, w0, rest', identity_idx.
  split; [done |]. split; [done |]. split; [done |].
  apply length_str_mul_I.
Qed.

Lemma identity_label_source_witness :
  exists out σ',
    construct (World ragged []) = (Ok out, σ') /\
    exists op p0 w0 rest identity_idx,
      last (kept_ops ragged) = Some op /\
      nonzero_terms op = (p0, w0) :: rest /\
      tensor_paulis out !! identity_idx
      = Some (str_mul "I" (String.length p0)) /\
      String.length (str_mul "I" (String.length p0)) = String.length p0.
Proof.
  eexists _, _. split; [vm_compute; reflexivity |].
  eapply (identity_label_source (World ragged [])).
  vm_compute. reflexivity.
Defined.
